(** * qutip/solver/nm_mcsolve.py : the non-Markovian Monte-Carlo solver

    A shallow embedding of [NonMarkovianMCSolver] and the properties of its
    rate shift, paired coefficients, martingale cache and trajectory loop.

    Numbers.  Python floats are modelled by the real numbers [R]: arithmetic
    is exact, and the two places where the floating-point result is not a
    number are written out: [py_div] raises on a zero divisor and [np_sqrt]
    yields [NaN] on a negative argument.

    Effects.  Python exceptions are the [Raise] case of [result]; methods
    that mutate [self] are state transformers [M A] over the solver record,
    and the state survives an exception as the object does in Python.

    Collaborators.  The operator library ([Qobj]), the quadrature routine,
    the jump integrator and the base class are parameters: a class
    [QobjLib], and the variables of section [Solver]. *)

From Stdlib Require Import Reals List Lra Lia Bool String Permutation.
Import ListNotations.
Local Open Scope R_scope.

(** ** Python builtins *)

Inductive exn : Type :=
| RuntimeError (msg : string)
| ValueError (msg : string)
| ZeroDivisionError
| IndexError
| KeyError
| AttributeError.

Inductive result (A : Type) : Type :=
| Ok (a : A)
| Raise (e : exn).
Arguments Ok {A} a.
Arguments Raise {A} e.

Definition empty_min_msg : string := "min() arg is an empty sequence".
Definition empty_max_msg : string := "max() arg is an empty sequence".

(** [min(a, b)] and [max(a, b)]: the first argument is kept unless the
    second is strictly smaller (larger). *)
Definition py_min2 (a b : R) : R := if Rlt_dec b a then b else a.
Definition py_max2 (a b : R) : R := if Rlt_dec a b then b else a.

(** [min(iterable)] and [max(iterable)]: [ValueError] on an empty one. *)
Definition py_min (l : list R) : result R :=
  match l with
  | [] => Raise (ValueError empty_min_msg)
  | x :: l' => Ok (fold_left py_min2 l' x)
  end.

Definition py_max (l : list R) : result R :=
  match l with
  | [] => Raise (ValueError empty_max_msg)
  | x :: l' => Ok (fold_left py_max2 l' x)
  end.

(** [x / y] on floats. *)
Definition py_div (x y : R) : result R :=
  if Req_dec_T y 0 then Raise ZeroDivisionError else Ok (x / y).

(** The builtin [float] used as a callable: [float(t)] is [t] for a float
    [t] (only the call without argument, [float()], is [0.0]). *)
Definition py_float (t : R) : R := t.

(** [l[i]] for a list and a non-negative index. *)
Definition py_index {A : Type} (l : list A) (i : nat) : result A :=
  match nth_error l i with
  | Some a => Ok a
  | None => Raise IndexError
  end.

(** A [dict] with float keys and float values, in insertion order. *)
Definition dict : Type := list (R * R).

Fixpoint dict_get (d : dict) (t : R) : option R :=
  match d with
  | [] => None
  | (k, v) :: d' => if Req_dec_T t k then Some v else dict_get d' t
  end.

Definition dict_keys (d : dict) : list R := map fst d.

Fixpoint dict_set (d : dict) (t v : R) : dict :=
  match d with
  | [] => [(t, v)]
  | (k, w) :: d' =>
      if Req_dec_T t k then (k, v) :: d' else (k, w) :: dict_set d' t v
  end.

(** The keys of [d] strictly below [t]. *)
Definition earlier (t : R) (d : dict) : list R :=
  filter (fun t0 => if Rlt_dec t0 t then true else false) (dict_keys d).

(** ** numpy *)

Inductive npfloat : Type :=
| Fin (x : R)
| NaN.

(** [np.sqrt]: not a number below zero (a warning, no exception). *)
Definition np_sqrt (x : R) : npfloat :=
  if Rlt_dec x 0 then NaN else Fin (sqrt x).

(** [np.prod] of a list of floats; the empty product is [1.0]. *)
Definition np_prod (l : list R) : R := fold_left Rmult l 1.

(** Complex scalars, as (real part, imaginary part). *)
Definition C : Type := (R * R)%type.
Definition RtoC (x : R) : C := (x, 0).
Definition np_real (z : C) : R := fst z.
Definition Cdiv_nat (z : C) (n : nat) : result C :=
  if Nat.eqb n 0 then Raise ZeroDivisionError
  else Ok (fst z / INR n, snd z / INR n).

Definition Cadd (z w : C) : C := (fst z + fst w, snd z + snd w).
Definition Csub (z w : C) : C := (fst z - fst w, snd z - snd w).
Definition Cmul (z w : C) : C :=
  (fst z * fst w - snd z * snd w, fst z * snd w + snd z * fst w).
Definition Cconj (z : C) : C := (fst z, - snd z).
Definition Cabs (z : C) : R := sqrt (fst z * fst z + snd z * snd z).

(** The principal square root. *)
Definition Csqrt (z : C) : C :=
  (sqrt ((Cabs z + fst z) / 2),
   (if Rlt_dec (snd z) 0 then -1 else 1) * sqrt ((Cabs z - fst z) / 2)).

(** ** The operator library

    The operations of [qutip.core] used by the solver.  [qeye_like op] is
    [qeye(op.dims[0])]; [qeq rtol atol] is [==] under
    [CoreOptions(rtol=..., atol=...)]. *)
Class QobjLib (Qobj : Type) : Type := {
  dag : Qobj -> Qobj;
  qmul : Qobj -> Qobj -> Qobj;
  qadd : Qobj -> Qobj -> Qobj;
  qsub : Qobj -> Qobj -> Qobj;
  qscale : C -> Qobj -> Qobj;
  tr : Qobj -> C;
  shape0 : Qobj -> nat;
  qeye_like : Qobj -> Qobj;
  qeq : R -> R -> Qobj -> Qobj -> bool;
  eigenenergies : Qobj -> list R;
  sqrtm : Qobj -> Qobj;
  isket : Qobj -> bool;
  ket2dm : Qobj -> Qobj
}.

Record Options : Type := {
  completeness_rtol : R;
  completeness_atol : R
}.

(** The class attribute [solver_options]. *)
Definition solver_options : Options :=
  {| completeness_rtol := 1 / 100000; completeness_atol := 1 / 100000000 |}.

(** What a trajectory hands to the aggregator: the times and states given
    to [Result.add], the [trace] list and the [collapse] record. *)
Record TrajResult (Qobj : Type) : Type := {
  times : list R;
  states : list Qobj;
  trace : list R;
  collapse : list (R * nat)
}.
Arguments times {Qobj} _.
Arguments states {Qobj} _.
Arguments trace {Qobj} _.
Arguments collapse {Qobj} _.

Definition start_first_msg : string := "The `start` method must called first.".
Definition backwards_msg : string := "Cannot integrate backwards in time.".

(** [scipy.integrate.quad(f, a, b)[0]]; an exception of the integrand or
    of the routine propagates. *)
Class Quadrature : Type := {
  quad : (R -> result R) -> R -> R -> result R
}.

(** The jump integrator behind [self._integrator] ([integ_time] is the time
    of [get_state], [integ_collapses] the attribute [collapses]) and the
    pieces of the base classes that the overriding methods call. *)
Class Engine (Qobj Integ Seed Gen : Type) : Type := {
  integ_time : Integ -> R;
  integ_collapses : Integ -> list (R * nat);
  integ_set_state : R -> Qobj -> Gen -> Integ -> Integ;
  integ_integrate : R -> Integ -> (R * Qobj) * Integ;
  _restore_state : Qobj -> Qobj;
  _get_generator : Seed -> Gen;
  super_step : R -> Integ -> result Qobj * Integ;
  super_start : Qobj -> R -> option Seed -> Integ -> Integ
}.

Section Solver.

Context {Qobj Integ Seed Gen : Type}.
Context {QL : QobjLib Qobj} {QD : Quadrature}
        {EN : Engine Qobj Integ Seed Gen}.

Record NonMarkovianMCSolver : Type := {
  ops_and_rates : list (Qobj * (R -> R));
  options : Options;
  _mu_c : option dict;
  _a_parameter : R;
  _integrator : Integ
}.

Definition set_mu_c (self : NonMarkovianMCSolver) (d : dict) :=
  {| ops_and_rates := ops_and_rates self;
     options := options self;
     _mu_c := Some d;
     _a_parameter := _a_parameter self;
     _integrator := _integrator self |}.

Definition set_integrator (self : NonMarkovianMCSolver) (i : Integ) :=
  {| ops_and_rates := ops_and_rates self;
     options := options self;
     _mu_c := _mu_c self;
     _a_parameter := _a_parameter self;
     _integrator := i |}.

(** Methods that mutate [self]. *)
Definition M (A : Type) : Type :=
  NonMarkovianMCSolver -> result A * NonMarkovianMCSolver.

Definition ret {A : Type} (a : A) : M A := fun self => (Ok a, self).

Definition raise {A : Type} (e : exn) : M A := fun self => (Raise e, self).

Definition bind {A B : Type} (m : M A) (f : A -> M B) : M B :=
  fun self =>
    match m self with
    | (Ok a, self') => f a self'
    | (Raise e, self') => (Raise e, self')
    end.

Definition _2dm (q : Qobj) : Qobj := if isket q then ket2dm q else q.

(** [sum((L.dag() * L) for L, _ in ops_and_rates)]: the integer 0 that
    [sum] starts from is absorbed by the first operator, and is the
    result for an empty sequence, which has no [tr]. *)
Definition sum_LdagL (ops : list (Qobj * (R -> R))) : result Qobj :=
  match ops with
  | [] => Raise AttributeError
  | (L0, _) :: ops' =>
      Ok (fold_left (fun acc f => qadd acc (qmul (dag (fst f)) (fst f)))
                    ops' (qmul (dag L0) L0))
  end.

Definition _check_completeness (opts : Options)
    (ops : list (Qobj * (R -> R))) : result (R * option Qobj) :=
  match sum_LdagL ops with
  | Raise e => Raise e
  | Ok op =>
      match Cdiv_nat (tr op) (shape0 op) with
      | Raise e => Raise e
      | Ok a_candidate =>
          if qeq (completeness_rtol opts) (completeness_atol opts)
                 op (qscale a_candidate (qeye_like op))
          then Ok (np_real a_candidate, None)
          else
            match py_max (eigenenergies op) with
            | Raise e => Raise e
            | Ok a =>
                let L := sqrtm (qsub (qscale (RtoC a) (qeye_like op)) op) in
                Ok (a, Some L)
            end
      end
  end.

Definition _rate_shift (self : NonMarkovianMCSolver) (t : R) : result R :=
  match py_min (map (fun f => snd f t) (ops_and_rates self)) with
  | Raise e => Raise e
  | Ok min_rate => Ok (2 * Rabs (py_min2 0 min_rate))
  end.

Definition _sqrt_gamma (self : NonMarkovianMCSolver) (t : R)
    (original_rate : R -> R) : result npfloat :=
  match _rate_shift self t with
  | Raise e => Raise e
  | Ok shift => Ok (np_sqrt (original_rate t + shift))
  end.

(** The coefficient of a [QobjEvo([L, sqrt_gamma])] is the partial
    application of [_sqrt_gamma] to the pair's rate. *)
Definition _compute_paired_c_ops (self : NonMarkovianMCSolver)
    : list (Qobj * (R -> result npfloat)) :=
  map (fun f => (fst f, fun t => _sqrt_gamma self t (snd f)))
      (ops_and_rates self).

Definition __init__ (integrator : Integ) (ops : list (Qobj * (R -> R)))
    (opts : Options) : result NonMarkovianMCSolver :=
  match _check_completeness opts ops with
  | Raise e => Raise e
  | Ok (a, L) =>
      Ok {| ops_and_rates :=
              match L with
              | Some L => ops ++ [(L, py_float)]
              | None => ops
              end;
            options := opts;
            _mu_c := None;
            _a_parameter := a;
            _integrator := integrator |}
  end.

Definition _continuous_martingale (t : R) : M R :=
  fun self =>
    match _mu_c self with
    | None => (Raise (RuntimeError start_first_msg), self)
    | Some mu_c =>
        match dict_get mu_c t with
        | Some v => (Ok v, self)
        | None =>
            let earlier_times :=
              filter (fun t0 => if Rlt_dec t0 t then true else false)
                     (dict_keys mu_c) in
            match py_max earlier_times with
            | Raise _ => (Raise (ValueError backwards_msg), self)
            | Ok t0 =>
                match quad (_rate_shift self) t0 t with
                | Raise e => (Raise e, self)
                | Ok integral =>
                    match dict_get mu_c t0 with
                    | None => (Raise KeyError, self)
                    | Some v0 =>
                        let result :=
                          v0 * exp (_a_parameter self * integral) in
                        (Ok result, set_mu_c self (dict_set mu_c t result))
                    end
                end
            end
        end
    end.

(** One factor of the list comprehension in [_discrete_martingale]. *)
Definition discrete_factor (self : NonMarkovianMCSolver)
    (c : R * nat) : result R :=
  let (tk, ik) := c in
  match py_index (ops_and_rates self) ik with
  | Raise e => Raise e
  | Ok f =>
      match _rate_shift self tk with
      | Raise e => Raise e
      | Ok shift => py_div (snd f tk) (snd f tk + shift)
      end
  end.

Fixpoint discrete_factors (self : NonMarkovianMCSolver)
    (collapses : list (R * nat)) : result (list R) :=
  match collapses with
  | [] => Ok []
  | c :: cs =>
      match discrete_factor self c with
      | Raise e => Raise e
      | Ok x =>
          match discrete_factors self cs with
          | Raise e => Raise e
          | Ok xs => Ok (x :: xs)
          end
      end
  end.

Definition _discrete_martingale (self : NonMarkovianMCSolver)
    (collapses : list (R * nat)) : result R :=
  match discrete_factors self collapses with
  | Raise e => Raise e
  | Ok factors => Ok (np_prod factors)
  end.

Definition _current_martingale : M R :=
  fun self =>
    let t := integ_time (_integrator self) in
    let collapses := integ_collapses (_integrator self) in
    bind (_continuous_martingale t)
         (fun mu_c self' =>
            match _discrete_martingale self' collapses with
            | Raise e => (Raise e, self')
            | Ok mu_d => (Ok (mu_c * mu_d), self')
            end)
         self.

(** The loop [for t in tlist[1:]: self._continuous_martingale(t)]. *)
Fixpoint precompute (ts : list R) : M unit :=
  match ts with
  | [] => ret tt
  | t :: ts' => bind (_continuous_martingale t) (fun _ => precompute ts')
  end.

(** Modelled from the spec: [MCSolver.run], the multi-trajectory driver of
    the base class, is not in this file.  It calls the overridden
    [_run_one_traj] once per seed; trajectories are independent and the
    serial driver runs them one after the other on the solver object. *)
Fixpoint super_run {A : Type} (run_one : Seed -> M A) (seeds : list Seed)
    : M (list A) :=
  match seeds with
  | [] => ret []
  | seed :: seeds' =>
      bind (run_one seed)
           (fun r => bind (super_run run_one seeds')
                          (fun rs => ret (r :: rs)))
  end.

Definition start (state : Qobj) (t0 : R) (seed : option Seed) : M unit :=
  fun self =>
    let self1 := set_mu_c self [(t0, 1)] in
    (Ok tt,
     set_integrator self1 (super_start state t0 seed (_integrator self1))).

Definition step (t : R) : M Qobj :=
  fun self =>
    let (r, i) := super_step t (_integrator self) in
    match r with
    | Raise e => (Raise e, set_integrator self i)
    | Ok state =>
        let state_dm := _2dm state in
        bind _current_martingale
             (fun mu => ret (qscale (RtoC mu) state_dm))
             (set_integrator self i)
    end.

Definition result_add (result : TrajResult Qobj) (t : R) (state : Qobj)
    : TrajResult Qobj :=
  {| times := times result ++ [t];
     states := states result ++ [state];
     trace := trace result;
     collapse := collapse result |}.

Definition trace_append (result : TrajResult Qobj) (mu : R)
    : TrajResult Qobj :=
  {| times := times result;
     states := states result;
     trace := trace result ++ [mu];
     collapse := collapse result |}.

Definition set_collapse (result : TrajResult Qobj) (c : list (R * nat))
    : TrajResult Qobj :=
  {| times := times result;
     states := states result;
     trace := trace result;
     collapse := c |}.

(** The loop over [tlist[1:]] in [_run_one_traj]. *)
Fixpoint traj_loop (ts : list R) (result : TrajResult Qobj)
    : M (TrajResult Qobj) :=
  match ts with
  | [] => ret result
  | t :: ts' =>
      fun self =>
        let '((t', state), i) := integ_integrate t (_integrator self) in
        let state_dm := _2dm (_restore_state state) in
        bind _current_martingale
             (fun mu =>
                traj_loop ts'
                  (trace_append
                     (result_add result t' (qscale (RtoC mu) state_dm)) mu))
             (set_integrator self i)
  end.

Definition _run_one_traj (seed : Seed) (state : Qobj) (tlist : list R)
    : M (Seed * TrajResult Qobj) :=
  match tlist with
  | [] => raise IndexError
  | t0 :: rest =>
      fun self =>
        let generator := _get_generator seed in
        let self1 :=
          set_integrator self
            (integ_set_state t0 state generator (_integrator self)) in
        let result :=
          {| times := [t0];
             states := [_2dm (_restore_state state)];
             trace := [1];
             collapse := [] |} in
        bind (traj_loop rest result)
             (fun result self' =>
                (Ok (seed,
                     set_collapse result
                       (integ_collapses (_integrator self'))),
                 self'))
             self1
  end.

Definition run (state : Qobj) (tlist : list R) (seeds : list Seed)
    : M (list (Seed * TrajResult Qobj)) :=
  match tlist with
  | [] => raise IndexError
  | t0 :: rest =>
      fun self =>
        bind (precompute rest)
             (fun _ =>
                super_run (fun seed => _run_one_traj seed state tlist)
                          seeds)
             (set_mu_c self [(t0, 1)])
  end.

(** *** The quantities of the statements

    [Gamma self i t] is the rate of pair [i] at [t], [sigma self t] the
    rate shift, both read off the solver; [discrete_value] is the product
    of the likelihood ratios of the recorded events. *)
Definition Gamma (self : NonMarkovianMCSolver) (i : nat) (t : R) : R :=
  match nth_error (ops_and_rates self) i with
  | Some f => snd f t
  | None => 0
  end.

Definition rates_at (self : NonMarkovianMCSolver) (t : R) : list R :=
  map (fun f => snd f t) (ops_and_rates self).

Definition sigma (self : NonMarkovianMCSolver) (t : R) : R :=
  match _rate_shift self t with
  | Ok shift => shift
  | Raise _ => 0
  end.

(** A collapse event [c = (t, i)]: its index is in range; its shifted
    rate, the divisor of its factor. *)
Definition in_range (self : NonMarkovianMCSolver) (c : R * nat) : Prop :=
  (snd c < List.length (ops_and_rates self))%nat.

Definition denominator (self : NonMarkovianMCSolver) (c : R * nat) : R :=
  Gamma self (snd c) (fst c) + sigma self (fst c).

Definition discrete_value (self : NonMarkovianMCSolver)
    (collapses : list (R * nat)) : R :=
  fold_right
    (fun c acc => Gamma self (snd c) (fst c) / denominator self c * acc)
    1 collapses.

(** The paired coefficient with the radicand clamped at zero before the
    square root. *)
Definition sqrt_gamma_clamped (self : NonMarkovianMCSolver) (t : R)
    (original_rate : R -> R) : result npfloat :=
  match _rate_shift self t with
  | Raise e => Raise e
  | Ok shift => Ok (np_sqrt (Rmax 0 (original_rate t + shift)))
  end.

(** Every entry of the cache of [self] is an entry of the cache of
    [self']. *)
Definition cache_extends (self self' : NonMarkovianMCSolver) : Prop :=
  forall d, _mu_c self = Some d ->
    exists d', _mu_c self' = Some d' /\
               forall k v, dict_get d k = Some v -> dict_get d' k = Some v.

(** What a method may change besides the integrator: only the cache, and
    only by adding to it. *)
Definition only_extends (self self' : NonMarkovianMCSolver) : Prop :=
  ops_and_rates self' = ops_and_rates self /\
  _a_parameter self' = _a_parameter self /\
  cache_extends self self'.

(** The solver as each trajectory of [super_run] finds it. *)
Fixpoint entry_states {A : Type} (run_one : Seed -> M A)
    (seeds : list Seed) (self : NonMarkovianMCSolver)
    : list NonMarkovianMCSolver :=
  match seeds with
  | [] => []
  | seed :: seeds' =>
      self :: match run_one seed self with
              | (Ok _, self') => entry_states run_one seeds' self'
              | (Raise _, _) => []
              end
  end.

(** The solvers found by the trajectories of [run]. *)
Definition run_entry_states (state : Qobj) (tlist : list R)
    (seeds : list Seed) (self : NonMarkovianMCSolver)
    : list NonMarkovianMCSolver :=
  match tlist with
  | [] => []
  | t0 :: rest =>
      match precompute rest (set_mu_c self [(t0, 1)]) with
      | (Ok _, self1) =>
          entry_states (fun seed => _run_one_traj seed state tlist)
                       seeds self1
      | (Raise _, _) => []
      end
  end.

(** [gram_sum Ls Omega]: [Omega] is the sum, in order, of [L.dag() * L]
    over the operators [Ls]. *)
Inductive gram_sum : list Qobj -> Qobj -> Prop :=
| gram_one (L : Qobj) : gram_sum [L] (qmul (dag L) L)
| gram_snoc (Ls : list Qobj) (X L : Qobj) :
    gram_sum Ls X -> gram_sum (Ls ++ [L]) (qadd X (qmul (dag L) L)).

(** A method neither creates nor resets the cache: an uninitialized cache
    stays uninitialized, and every entry of an initialized one is kept. *)
Definition keeps_cache (self self' : NonMarkovianMCSolver) : Prop :=
  cache_extends self self' /\
  (_mu_c self = None -> _mu_c self' = None).

(** Every cached value is positive. *)
Definition cache_positive (self : NonMarkovianMCSolver) : Prop :=
  forall d, _mu_c self = Some d ->
    forall k v, dict_get d k = Some v -> 0 < v.

(** The events of a collapse list can be used by [_discrete_martingale]:
    index in range, shifted rate not zero. *)
Definition well_formed (self : NonMarkovianMCSolver)
    (collapses : list (R * nat)) : Prop :=
  forall c, In c collapses -> in_range self c /\ denominator self c <> 0.

(** A stored state is a trace weight times an operator. *)
Definition weighted (st : Qobj) (mu : R) : Prop :=
  exists rho, st = qscale (RtoC mu) rho.

(** The cache of [self] starts at [t0]: it holds [t0] and no earlier
    time. *)
Definition cache_from (t0 : R) (self : NonMarkovianMCSolver) : Prop :=
  exists d, _mu_c self = Some d /\ In t0 (dict_keys d) /\
            forall k, In k (dict_keys d) -> t0 <= k.

(** Every time of [ts] is cached. *)
Definition cached_times (ts : list R) (self : NonMarkovianMCSolver) : Prop :=
  exists d, _mu_c self = Some d /\
            forall t, In t ts -> In t (dict_keys d).

(** A cache as [start] creates it. *)
Definition fresh_cache (t0 : R) (self : NonMarkovianMCSolver) : Prop :=
  _mu_c self = Some [(t0, 1)].

End Solver.

Arguments NonMarkovianMCSolver : clear implicits.
Arguments M : clear implicits.

(** ** A concrete system

    Operators on a two-level system that are diagonal in the computational
    basis, a one-point quadrature rule and a jump integrator that keeps the
    state it was given.  The scenarios below are evaluated on it. *)
Module TwoLevel.

Record diag2 : Type := Diag { d0 : C; d1 : C }.

Definition lift1 (f : C -> C) (x : diag2) : diag2 :=
  Diag (f (d0 x)) (f (d1 x)).
Definition lift2 (f : C -> C -> C) (x y : diag2) : diag2 :=
  Diag (f (d0 x) (d0 y)) (f (d1 x) (d1 y)).

Definition close (rtol atol : R) (z w : C) : bool :=
  if Rle_dec (Cabs (Csub z w)) (atol + rtol * Cabs w) then true else false.

#[global] Instance diag2_lib : QobjLib diag2 := {|
  dag := lift1 Cconj;
  qmul := lift2 Cmul;
  qadd := lift2 Cadd;
  qsub := lift2 Csub;
  qscale := fun c => lift1 (Cmul c);
  tr := fun x => Cadd (d0 x) (d1 x);
  shape0 := fun _ => 2%nat;
  qeye_like := fun _ => Diag (RtoC 1) (RtoC 1);
  qeq := fun rtol atol x y =>
           close rtol atol (d0 x) (d0 y) && close rtol atol (d1 x) (d1 y);
  eigenenergies := fun x =>
           [Rmin (fst (d0 x)) (fst (d1 x)); Rmax (fst (d0 x)) (fst (d1 x))];
  sqrtm := lift1 Csqrt;
  isket := fun _ => false;
  ket2dm := fun x => x
|}.

(** The midpoint rule. *)
#[global] Instance midpoint : Quadrature := {|
  quad := fun f a b =>
            match f ((a + b) / 2) with
            | Raise e => Raise e
            | Ok y => Ok ((b - a) * y)
            end
|}.

Record frozen : Type := {
  now : R;
  held : diag2;
  jumps : list (R * nat)
}.

(** An integrator whose state does not move and which records no jump
    of its own; [set_state] empties the collapse list. *)
#[global] Instance frozen_engine : Engine diag2 frozen nat nat := {|
  integ_time := now;
  integ_collapses := jumps;
  integ_set_state := fun t0 state _ _ =>
                       {| now := t0; held := state; jumps := [] |};
  integ_integrate := fun t i =>
                       ((t, held i),
                        {| now := t; held := held i; jumps := jumps i |});
  _restore_state := fun x => x;
  _get_generator := fun seed => seed;
  super_step := fun t i =>
                  (Ok (held i),
                   {| now := t; held := held i; jumps := jumps i |});
  super_start := fun state t0 _ _ =>
                   {| now := t0; held := state; jumps := [] |}
|}.

Definition one : diag2 := Diag (RtoC 1) (RtoC 1).
Definition proj0 : diag2 := Diag (RtoC 1) (RtoC 0).
Definition proj1 : diag2 := Diag (RtoC 0) (RtoC 1).
Definition mixed : diag2 := Diag (RtoC (1 / 2)) (RtoC (1 / 2)).

Definition idle (t : R) : frozen :=
  {| now := t; held := mixed; jumps := [] |}.

(** Scenario A: one operator with [L.dag() * L] the identity and the
    constant rate -0.5. *)
Definition opsA : list (diag2 * (R -> R)) := [(one, fun _ => - (1 / 2))].

Definition scenarioA (cache : option dict) (i : frozen)
    : NonMarkovianMCSolver diag2 frozen :=
  {| ops_and_rates := opsA;
     options := solver_options;
     _mu_c := cache;
     _a_parameter := 1;
     _integrator := i |}.

(** The cache that [run] prepares for scenario A over the times 0, 1. *)
Definition cacheA : dict := [(0, 1); (1, 1 * exp (1 * (1 - 0)))].

(** Scenario B: two operators with the constant rates 1.0 and -2.0. *)
Definition opsB : list (diag2 * (R -> R)) :=
  [(proj0, fun _ => 1); (proj1, fun _ => -2)].

Definition scenarioB (cache : option dict) (i : frozen)
    : NonMarkovianMCSolver diag2 frozen :=
  {| ops_and_rates := opsB;
     options := solver_options;
     _mu_c := cache;
     _a_parameter := 1;
     _integrator := i |}.

(** One operator whose [L.dag() * L] is not a multiple of the identity,
    with the constant rate 1.0. *)
Definition opsP : list (diag2 * (R -> R)) := [(proj0, fun _ => 1)].

(** One operator with the constant rate 0.0. *)
Definition opsZ : list (diag2 * (R -> R)) := [(one, fun _ => 0)].

(** An integrator that has recorded one jump of the second operator. *)
Definition jumped (t : R) : frozen :=
  {| now := t; held := mixed; jumps := [(1 / 2, 1%nat)] |}.

Definition with_ops (ops : list (diag2 * (R -> R)))
    : NonMarkovianMCSolver diag2 frozen :=
  {| ops_and_rates := ops;
     options := solver_options;
     _mu_c := None;
     _a_parameter := 1;
     _integrator := idle 0 |}.

End TwoLevel.

(** * Properties *)

(** ** Builtins *)

Lemma py_min2_spec (a b : R) : py_min2 a b = Rmin a b.
Proof.
  unfold py_min2, Rmin.
  destruct (Rlt_dec b a), (Rle_dec a b); lra.
Qed.

Lemma py_max2_spec (a b : R) : py_max2 a b = Rmax a b.
Proof.
  unfold py_max2, Rmax.
  destruct (Rlt_dec a b), (Rle_dec a b); lra.
Qed.

Lemma fold_min_lower (l : list R) (x : R) :
  fold_left py_min2 l x <= x /\
  forall y, In y l -> fold_left py_min2 l x <= y.
Proof.
  revert x; induction l as [|z l IH]; intros x; simpl.
  - split; [lra | tauto].
  - destruct (IH (py_min2 x z)) as [Hx Hl].
    assert (Hz : py_min2 x z <= x /\ py_min2 x z <= z).
    { rewrite py_min2_spec; split; [apply Rmin_l | apply Rmin_r]. }
    split; [lra |].
    intros y [<- | Hy]; [lra | auto].
Qed.

Lemma fold_min_member (l : list R) (x : R) :
  In (fold_left py_min2 l x) (x :: l).
Proof.
  revert x; induction l as [|z l IH]; intros x; simpl.
  - now left.
  - destruct (IH (py_min2 x z)) as [Heq | Hin].
    + unfold py_min2 in Heq at 1.
      destruct (Rlt_dec z x); [right; left | left]; exact Heq.
    + right; right; exact Hin.
Qed.

Lemma fold_max_upper (l : list R) (x : R) :
  x <= fold_left py_max2 l x /\
  forall y, In y l -> y <= fold_left py_max2 l x.
Proof.
  revert x; induction l as [|z l IH]; intros x; simpl.
  - split; [lra | tauto].
  - destruct (IH (py_max2 x z)) as [Hx Hl].
    assert (Hz : x <= py_max2 x z /\ z <= py_max2 x z).
    { rewrite py_max2_spec; split; [apply Rmax_l | apply Rmax_r]. }
    split; [lra |].
    intros y [<- | Hy]; [lra | auto].
Qed.

Lemma fold_max_member (l : list R) (x : R) :
  In (fold_left py_max2 l x) (x :: l).
Proof.
  revert x; induction l as [|z l IH]; intros x; simpl.
  - now left.
  - destruct (IH (py_max2 x z)) as [Heq | Hin].
    + unfold py_max2 in Heq at 1.
      destruct (Rlt_dec x z); [right; left | left]; exact Heq.
    + right; right; exact Hin.
Qed.

(** [min] of a non-empty sequence returns one of its elements, below all. *)
Lemma py_min_ok (l : list R) :
  l <> [] ->
  exists m, py_min l = Ok m /\ In m l /\ forall y, In y l -> m <= y.
Proof.
  destruct l as [|x l]; [congruence | intros _].
  exists (fold_left py_min2 l x); simpl py_min.
  destruct (fold_min_lower l x) as [Hx Hl].
  split; [reflexivity | split; [apply fold_min_member |]].
  intros y [<- | Hy]; auto.
Qed.

Lemma py_max_ok (l : list R) :
  l <> [] ->
  exists m, py_max l = Ok m /\ In m l /\ forall y, In y l -> y <= m.
Proof.
  destruct l as [|x l]; [congruence | intros _].
  exists (fold_left py_max2 l x); simpl py_max.
  destruct (fold_max_upper l x) as [Hx Hl].
  split; [reflexivity | split; [apply fold_max_member |]].
  intros y [<- | Hy]; auto.
Qed.

(** [2 * abs(min(0, m))] is [2 * max(0, -m)]. *)
Lemma shift_formula (m : R) : 2 * Rabs (py_min2 0 m) = 2 * Rmax 0 (- m).
Proof.
  unfold py_min2, Rmax.
  destruct (Rlt_dec m 0), (Rle_dec 0 (- m)); try lra.
  - rewrite Rabs_left by lra; lra.
  - rewrite Rabs_R0; lra.
  - rewrite Rabs_R0; lra.
Qed.

Section RateShift.

Context {Qobj Integ : Type}.
Implicit Types self : NonMarkovianMCSolver Qobj Integ.

Lemma rates_at_nonempty self t :
  ops_and_rates self <> [] -> rates_at self t <> [].
Proof.
  unfold rates_at; destruct (ops_and_rates self); [congruence | discriminate].
Qed.

Lemma rate_shift_ok self t :
  ops_and_rates self <> [] ->
  exists m,
    py_min (rates_at self t) = Ok m /\
    In m (rates_at self t) /\
    (forall f, In f (ops_and_rates self) -> m <= snd f t) /\
    _rate_shift self t = Ok (2 * Rmax 0 (- m)).
Proof.
  intros Hne.
  destruct (py_min_ok (rates_at self t) (rates_at_nonempty self t Hne))
    as (m & Hmin & Hin & Hlow).
  exists m; repeat split; auto.
  - intros f Hf; apply Hlow.
    unfold rates_at; apply in_map_iff; now exists f.
  - unfold _rate_shift; fold (rates_at self t).
    rewrite Hmin, shift_formula; reflexivity.
Qed.

Lemma sigma_ok self t :
  ops_and_rates self <> [] -> _rate_shift self t = Ok (sigma self t).
Proof.
  intros Hne; destruct (rate_shift_ok self t Hne) as (m & _ & _ & _ & E).
  unfold sigma; rewrite E; reflexivity.
Qed.

Lemma sigma_shifts self t f :
  In f (ops_and_rates self) ->
  0 <= sigma self t /\ 0 <= snd f t + sigma self t /\
  (snd f t + sigma self t = 0 -> snd f t = 0 /\ sigma self t = 0).
Proof.
  intros Hf.
  assert (Hne : ops_and_rates self <> []).
  { intros E; rewrite E in Hf; exact Hf. }
  destruct (rate_shift_ok self t Hne) as (m & _ & _ & Hlow & E).
  unfold sigma; rewrite E.
  specialize (Hlow f Hf).
  unfold Rmax; destruct (Rle_dec 0 (- m)); repeat split; lra.
Qed.

(** C4. For a solver with at least one operator-rate pair and every time
    [t], [_rate_shift] returns [2 * max(0, -m)] where [m] is the minimum
    of the rates evaluated at [t]; the shift is non-negative and so is
    every shifted rate [Gamma_i(t) + sigma(t)]. *)
Theorem rate_shift_nonneg self t (Hne : ops_and_rates self <> []) :
  exists m,
    py_min (rates_at self t) = Ok m /\
    In m (rates_at self t) /\
    (forall f, In f (ops_and_rates self) -> m <= snd f t) /\
    _rate_shift self t = Ok (2 * Rmax 0 (- m)) /\
    0 <= 2 * Rmax 0 (- m) /\
    forall f, In f (ops_and_rates self) -> 0 <= snd f t + 2 * Rmax 0 (- m).
Proof.
  destruct (rate_shift_ok self t Hne) as (m & Hmin & Hin & Hlow & E).
  exists m; repeat split; auto.
  - unfold Rmax; destruct (Rle_dec 0 (- m)); lra.
  - intros f Hf; specialize (Hlow f Hf).
    unfold Rmax; destruct (Rle_dec 0 (- m)); lra.
Qed.

End RateShift.

(** ** The martingale cache *)

Lemma dict_get_key (d : dict) (t v : R) :
  dict_get d t = Some v -> In t (dict_keys d).
Proof.
  induction d as [|[k w] d IH]; simpl; [discriminate |].
  destruct (Req_dec_T t k) as [-> | _]; [now left | right; auto].
Qed.

Lemma dict_key_get (d : dict) (t : R) :
  In t (dict_keys d) -> exists v, dict_get d t = Some v.
Proof.
  induction d as [|[k w] d IH]; simpl; [tauto |].
  intros Hin; destruct (Req_dec_T t k) as [-> | Hne]; [now exists w |].
  destruct Hin as [E | Hin]; [congruence | auto].
Qed.

Lemma dict_get_set_same (d : dict) (t v : R) :
  dict_get (dict_set d t v) t = Some v.
Proof.
  induction d as [|[k w] d IH]; simpl.
  - destruct (Req_dec_T t t); congruence.
  - destruct (Req_dec_T t k) as [E | Hne]; simpl.
    + destruct (Req_dec_T t k); congruence.
    + destruct (Req_dec_T t k); congruence.
Qed.

Lemma dict_get_set_other (d : dict) (t v k : R) :
  k <> t -> dict_get (dict_set d t v) k = dict_get d k.
Proof.
  intros Hkt; induction d as [|[k' w] d IH]; simpl.
  - destruct (Req_dec_T k t); congruence.
  - destruct (Req_dec_T t k') as [E | Hne]; simpl.
    + destruct (Req_dec_T k k'); congruence.
    + destruct (Req_dec_T k k'); congruence.
Qed.

(** Setting a key that is not in the dict appends it. *)
Lemma dict_set_new_key (d : dict) (t v : R) :
  dict_get d t = None -> dict_keys (dict_set d t v) = dict_keys d ++ [t].
Proof.
  induction d as [|[k w] d IH]; simpl; [reflexivity |].
  destruct (Req_dec_T t k); [discriminate |].
  intros Hnone; simpl; rewrite IH by exact Hnone; reflexivity.
Qed.

Lemma earlier_In (t : R) (d : dict) (k : R) :
  In k (earlier t d) <-> In k (dict_keys d) /\ k < t.
Proof.
  unfold earlier; rewrite filter_In.
  destruct (Rlt_dec k t); intuition discriminate.
Qed.

(** [max(earlier_times)] is the largest key below [t]. *)
Lemma earlier_max (t : R) (d : dict) (t0 : R) :
  In t0 (dict_keys d) -> t0 < t ->
  (forall k, In k (dict_keys d) -> k < t -> k <= t0) ->
  py_max (earlier t d) = Ok t0.
Proof.
  intros Hin Hlt Htop.
  assert (Hne : earlier t d <> []).
  { intros E. assert (H : In t0 (earlier t d)) by (apply earlier_In; auto).
    rewrite E in H; exact H. }
  destruct (py_max_ok _ Hne) as (m & -> & Hm & Hup).
  apply earlier_In in Hm; destruct Hm as [Hmk Hmt].
  f_equal; apply Rle_antisym; [auto |].
  apply Hup, earlier_In; auto.
Qed.

Section Continuous.

Context {Qobj Integ : Type} {QD : Quadrature}.
Implicit Types self : NonMarkovianMCSolver Qobj Integ.

Lemma continuous_hit self d t v :
  _mu_c self = Some d -> dict_get d t = Some v ->
  _continuous_martingale t self = (Ok v, self).
Proof.
  intros Hd Hv; unfold _continuous_martingale; rewrite Hd, Hv; reflexivity.
Qed.

Lemma continuous_miss self d t t0 v0 I :
  _mu_c self = Some d -> dict_get d t = None ->
  dict_get d t0 = Some v0 -> t0 < t ->
  (forall k, In k (dict_keys d) -> k < t -> k <= t0) ->
  quad (_rate_shift self) t0 t = Ok I ->
  _continuous_martingale t self =
    (Ok (v0 * exp (_a_parameter self * I)),
     set_mu_c self (dict_set d t (v0 * exp (_a_parameter self * I)))).
Proof.
  intros Hd Hmiss Hv0 Hlt Htop Hq.
  unfold _continuous_martingale; rewrite Hd, Hmiss.
  fold (earlier t d).
  rewrite (earlier_max t d t0 (dict_get_key _ _ _ Hv0) Hlt Htop).
  rewrite Hq, Hv0; reflexivity.
Qed.

Lemma continuous_uninitialized self t :
  _mu_c self = None ->
  _continuous_martingale t self =
    (Raise (RuntimeError start_first_msg), self).
Proof.
  intros Hd; unfold _continuous_martingale; rewrite Hd; reflexivity.
Qed.

Lemma continuous_backwards self d t :
  _mu_c self = Some d ->
  (forall k, In k (dict_keys d) -> t < k) ->
  _continuous_martingale t self = (Raise (ValueError backwards_msg), self).
Proof.
  intros Hd Hall; unfold _continuous_martingale; rewrite Hd.
  destruct (dict_get d t) as [v|] eqn:Hv.
  - apply dict_get_key, Hall in Hv; lra.
  - fold (earlier t d).
    destruct (py_max (earlier t d)) as [t0|e] eqn:Hmax; [| reflexivity].
    exfalso.
    destruct (earlier t d) as [|x l] eqn:He; [discriminate |].
    assert (Hx : In x (earlier t d)) by (rewrite He; now left).
    apply earlier_In in Hx; destruct Hx as [Hk Hlt].
    specialize (Hall x Hk); lra.
Qed.

(** C2. On an initialized cache, a query at a cached time returns the
    cached value and leaves the solver, cache included, as it is, whatever
    the quadrature would give; a query at any other time [t], with [t0]
    the largest cached time below [t] and [I] the quadrature of the rate
    shift from [t0] to [t], returns [v = cache[t0] * exp(a * I)] and
    stores it: the cache of the solver after the call maps [t] to [v] and
    every other time to what it held, nothing else of the solver changes,
    and asking again at [t] finds [v]. *)
Theorem continuous_martingale_cached self d t (Hinit : _mu_c self = Some d) :
  (forall v, dict_get d t = Some v ->
     _continuous_martingale t self = (Ok v, self) /\
     _mu_c (snd (_continuous_martingale t self)) = Some d) /\
  (forall t0 v0 I,
     dict_get d t = None ->
     dict_get d t0 = Some v0 -> t0 < t ->
     (forall k, In k (dict_keys d) -> k < t -> k <= t0) ->
     quad (_rate_shift self) t0 t = Ok I ->
     let v := v0 * exp (_a_parameter self * I) in
     exists self' d',
       _continuous_martingale t self = (Ok v, self') /\
       _mu_c self' = Some d' /\
       dict_get d' t = Some v /\
       (forall k, k <> t -> dict_get d' k = dict_get d k) /\
       dict_keys d' = dict_keys d ++ [t] /\
       ops_and_rates self' = ops_and_rates self /\
       _a_parameter self' = _a_parameter self /\
       _integrator self' = _integrator self /\
       _continuous_martingale t self' = (Ok v, self')).
Proof.
  split.
  - intros v Hv; rewrite (continuous_hit self d t v Hinit Hv).
    split; [reflexivity | exact Hinit].
  - intros t0 v0 I Hmiss Hv0 Hlt Htop Hq v.
    exists (set_mu_c self (dict_set d t v)), (dict_set d t v).
    split; [exact (continuous_miss self d t t0 v0 I Hinit Hmiss Hv0 Hlt Htop Hq) |].
    split; [reflexivity |].
    split; [apply dict_get_set_same |].
    split; [intros k Hk; now apply dict_get_set_other |].
    split; [now apply dict_set_new_key |].
    split; [reflexivity |]; split; [reflexivity |]; split; [reflexivity |].
    apply continuous_hit with (dict_set d t v);
      [reflexivity | apply dict_get_set_same].
Qed.

(** C7. A query on a solver whose cache was never initialized raises the
    [RuntimeError] of the uninitialized state, and a query at a time
    strictly earlier than every cached time raises the [ValueError] of
    backward integration; in both cases no value is returned and the
    solver is left as it was. *)
Theorem continuous_martingale_fails self t :
  (_mu_c self = None ->
     _continuous_martingale t self =
       (Raise (RuntimeError start_first_msg), self)) /\
  (forall d, _mu_c self = Some d ->
     (forall k, In k (dict_keys d) -> t < k) ->
     _continuous_martingale t self =
       (Raise (ValueError backwards_msg), self)).
Proof.
  split.
  - apply continuous_uninitialized.
  - intros d; apply continuous_backwards.
Qed.

End Continuous.

(** ** The discrete martingale *)

Lemma fold_left_Rmult (l : list R) (a : R) :
  fold_left Rmult l a = a * fold_right Rmult 1 l.
Proof.
  revert a; induction l as [|x l IH]; intros a; simpl.
  - lra.
  - rewrite IH; lra.
Qed.

Lemma np_prod_cons (x : R) (l : list R) : np_prod (x :: l) = x * np_prod l.
Proof.
  unfold np_prod; simpl.
  rewrite (fold_left_Rmult l (1 * x)), (fold_left_Rmult l 1); lra.
Qed.

Lemma py_div_ok (x y : R) : y <> 0 -> py_div x y = Ok (x / y).
Proof. intros Hy; unfold py_div; destruct (Req_dec_T y 0); congruence. Qed.

Lemma py_div_zero (x : R) : py_div x 0 = Raise ZeroDivisionError.
Proof. unfold py_div; destruct (Req_dec_T 0 0); congruence. Qed.

Section Discrete.

Context {Qobj Integ : Type}.
Implicit Types self : NonMarkovianMCSolver Qobj Integ.
Implicit Types c : R * nat.

(** With the index in range, a factor is the quotient of the rate by the
    shifted rate. *)
Lemma discrete_factor_div self c :
  in_range self c ->
  discrete_factor self c =
    py_div (Gamma self (snd c) (fst c)) (denominator self c).
Proof.
  destruct c as [tk ik]; unfold in_range, denominator, Gamma; simpl.
  intros Hlt.
  destruct (nth_error (ops_and_rates self) ik) as [f|] eqn:Hf.
  - unfold py_index; rewrite Hf.
    rewrite sigma_ok; [reflexivity |].
    intros E; rewrite E in Hf; destruct ik; discriminate.
  - apply nth_error_None in Hf; lia.
Qed.

Lemma denominator_zero self c :
  in_range self c ->
  denominator self c = 0 ->
  Gamma self (snd c) (fst c) = 0 /\ sigma self (fst c) = 0.
Proof.
  unfold in_range, denominator, Gamma; intros Hlt.
  destruct (nth_error (ops_and_rates self) (snd c)) as [f|] eqn:Hf.
  - apply nth_error_In in Hf.
    apply (sigma_shifts self (fst c) f Hf).
  - apply nth_error_None in Hf; lia.
Qed.

Lemma discrete_factors_ok self collapses :
  (forall c, In c collapses ->
             in_range self c /\ denominator self c <> 0) ->
  exists factors,
    discrete_factors self collapses = Ok factors /\
    np_prod factors = discrete_value self collapses.
Proof.
  induction collapses as [|c cs IH]; intros Hwf.
  - exists []; split; [reflexivity |].
    unfold np_prod; reflexivity.
  - destruct (Hwf c (or_introl eq_refl)) as [Hr Hd].
    destruct IH as (xs & Hxs & Hprod).
    { intros c' Hc'; apply Hwf; now right. }
    exists (Gamma self (snd c) (fst c) / denominator self c :: xs).
    simpl discrete_factors.
    rewrite (discrete_factor_div self c Hr), (py_div_ok _ _ Hd), Hxs.
    split; [reflexivity |].
    rewrite np_prod_cons, Hprod; reflexivity.
Qed.

(** With the indices in range, the only exception is that of a zero
    divisor, and it is raised exactly when some denominator is zero. *)
Lemma discrete_factors_cases self collapses :
  (forall c, In c collapses -> in_range self c) ->
  ((exists factors, discrete_factors self collapses = Ok factors) /\
   (forall c, In c collapses -> denominator self c <> 0)) \/
  (discrete_factors self collapses = Raise ZeroDivisionError /\
   exists c, In c collapses /\ denominator self c = 0).
Proof.
  induction collapses as [|c cs IH]; intros Hr.
  - left; split; [now exists [] | intros c []].
  - simpl discrete_factors.
    rewrite (discrete_factor_div self c (Hr c (or_introl eq_refl))).
    destruct (Req_dec_T (denominator self c) 0) as [E | Hne].
    + right; rewrite E, py_div_zero; split; [reflexivity |].
      exists c; split; [now left | exact E].
    + rewrite (py_div_ok _ _ Hne).
      destruct IH as [[(xs & ->) Hall] | [-> (c' & Hin & E)]].
      * intros c' Hc'; apply Hr; now right.
      * left; split; [eauto |].
        intros c' [<- | Hc']; auto.
      * right; split; [reflexivity |].
        exists c'; split; [now right | exact E].
Qed.

Lemma discrete_martingale_ok self collapses :
  (forall c, In c collapses ->
             in_range self c /\ denominator self c <> 0) ->
  _discrete_martingale self collapses = Ok (discrete_value self collapses).
Proof.
  intros Hwf; unfold _discrete_martingale.
  destruct (discrete_factors_ok self collapses Hwf) as (xs & -> & ->).
  reflexivity.
Qed.

(** Scenario B. *)
Lemma scenario_B_shift self (L1 L2 : Qobj) t :
  ops_and_rates self = [(L1, fun _ => 1); (L2, fun _ => -2)] ->
  _rate_shift self t = Ok 4.
Proof.
  intros E; unfold _rate_shift; rewrite E; simpl.
  unfold py_min2 at 2; destruct (Rlt_dec (-2) 1); [| lra].
  unfold py_min2; destruct (Rlt_dec (-2) 0); [| lra].
  rewrite Rabs_left by lra; f_equal; lra.
Qed.

Lemma scenario_B_jump self (L1 L2 : Qobj) :
  ops_and_rates self = [(L1, fun _ => 1); (L2, fun _ => -2)] ->
  _discrete_martingale self [(1 / 2, 1%nat)] = Ok (-1).
Proof.
  intros E; unfold _discrete_martingale; simpl.
  rewrite (scenario_B_shift self L1 L2 _ E).
  unfold py_index; rewrite E; simpl.
  rewrite py_div_ok by lra.
  unfold np_prod; simpl; f_equal; lra.
Qed.

End Discrete.

(** C3. The discrete martingale of the empty collapse list is 1; for a list
    whose events have their index in range and a non-zero shifted rate it is
    the product of [Gamma_i(t) / (Gamma_i(t) + sigma(t))] over the events;
    and a negative factor keeps its sign: with the constant rates 1.0 and
    -2.0 the shift is 4.0 at every time and one jump of the second operator
    at [t = 0.5] gives exactly -1. *)
Theorem discrete_martingale_product (Qobj Integ : Type) :
  (forall self : NonMarkovianMCSolver Qobj Integ,
     _discrete_martingale self [] = Ok 1) /\
  (forall (self : NonMarkovianMCSolver Qobj Integ) collapses,
     (forall c, In c collapses ->
                in_range self c /\ denominator self c <> 0) ->
     _discrete_martingale self collapses =
       Ok (discrete_value self collapses)) /\
  (forall (self : NonMarkovianMCSolver Qobj Integ) (L1 L2 : Qobj),
     ops_and_rates self = [(L1, fun _ => 1); (L2, fun _ => -2)] ->
     (forall t, _rate_shift self t = Ok 4) /\
     _discrete_martingale self [(1 / 2, 1%nat)] = Ok (-1)).
Proof.
  split; [| split].
  - intros self; reflexivity.
  - intros self collapses; apply discrete_martingale_ok.
  - intros self L1 L2 E; split.
    + intros t; exact (scenario_B_shift self L1 L2 t E).
    + exact (scenario_B_jump self L1 L2 E).
Qed.

(** C10. The division is not guarded.  For a collapse list with its indices
    in range, the discrete martingale has a value exactly when the shifted
    rate [Gamma_i(t) + sigma(t)] of every event is non-zero; an event whose
    rate and rate shift are both 0 makes the code evaluate [0 / 0], and the
    call ends in the [ZeroDivisionError] of that division. *)
Theorem discrete_martingale_unguarded (Qobj Integ : Type)
    (self : NonMarkovianMCSolver Qobj Integ) (collapses : list (R * nat))
    (Hrange : forall c, In c collapses -> in_range self c) :
  ((exists v, _discrete_martingale self collapses = Ok v) <->
   (forall c, In c collapses -> denominator self c <> 0)) /\
  (forall c, In c collapses ->
     Gamma self (snd c) (fst c) = 0 -> sigma self (fst c) = 0 ->
     discrete_factor self c = py_div 0 0 /\
     py_div 0 0 = Raise ZeroDivisionError /\
     _discrete_martingale self collapses = Raise ZeroDivisionError) /\
  (forall c, In c collapses -> denominator self c = 0 ->
     Gamma self (snd c) (fst c) = 0 /\ sigma self (fst c) = 0).
Proof.
  destruct (discrete_factors_cases self collapses Hrange)
    as [[(xs & Hxs) Hall] | [Hraise (c0 & Hin0 & E0)]].
  - split; [| split].
    + split; [intros _; exact Hall |].
      intros _; unfold _discrete_martingale; rewrite Hxs; eauto.
    + intros c Hc HG Hs; exfalso; apply (Hall c Hc).
      unfold denominator; rewrite HG, Hs; lra.
    + intros c Hc E; apply denominator_zero; auto.
  - split; [| split].
    + split.
      * intros (v & Hv); unfold _discrete_martingale in Hv.
        rewrite Hraise in Hv; discriminate.
      * intros Hall; exfalso; exact (Hall c0 Hin0 E0).
    + intros c Hc HG Hs.
      rewrite (discrete_factor_div self c (Hrange c Hc)).
      unfold denominator; rewrite HG, Hs.
      replace (0 + 0) with 0 by lra.
      split; [reflexivity | split; [apply py_div_zero |]].
      unfold _discrete_martingale; rewrite Hraise; reflexivity.
    + intros c Hc E; apply denominator_zero; auto.
Qed.

(** ** The paired coefficients *)

Section Paired.

Context {Qobj Integ : Type}.
Implicit Types self : NonMarkovianMCSolver Qobj Integ.

Lemma sqrt_gamma_value self t (rate : R -> R) :
  ops_and_rates self <> [] ->
  _sqrt_gamma self t rate = Ok (np_sqrt (rate t + sigma self t)).
Proof.
  intros Hne; unfold _sqrt_gamma.
  rewrite (sigma_ok self t Hne); reflexivity.
Qed.

Lemma sqrt_gamma_in_sequence self t f :
  In f (ops_and_rates self) ->
  0 <= snd f t + sigma self t /\
  _sqrt_gamma self t (snd f) = Ok (Fin (sqrt (snd f t + sigma self t))).
Proof.
  intros Hf.
  assert (Hne : ops_and_rates self <> []).
  { intros E; rewrite E in Hf; exact Hf. }
  destruct (sigma_shifts self t f Hf) as (_ & Hpos & _).
  split; [exact Hpos |].
  rewrite sqrt_gamma_value by exact Hne.
  unfold np_sqrt; destruct (Rlt_dec (snd f t + sigma self t) 0);
    [lra | reflexivity].
Qed.

(** X18. On the pairs of the operator-rate sequence a clamp of the
    radicand would change nothing: for every pair and every time the
    radicand [Gamma_i(t) + sigma(t)] is non-negative, so it is its own
    maximum with zero, and the coefficient that [_sqrt_gamma] computes is
    the coefficient with the radicand clamped at zero, the real square
    root of the shifted rate. *)
Theorem coefficient_clamp_free self t f (Hf : In f (ops_and_rates self)) :
  0 <= snd f t + sigma self t /\
  Rmax 0 (snd f t + sigma self t) = snd f t + sigma self t /\
  _sqrt_gamma self t (snd f) = sqrt_gamma_clamped self t (snd f) /\
  _sqrt_gamma self t (snd f) = Ok (Fin (sqrt (snd f t + sigma self t))).
Proof.
  destruct (sqrt_gamma_in_sequence self t f Hf) as [Hpos Hval].
  assert (Hne : ops_and_rates self <> []).
  { intros E; rewrite E in Hf; exact Hf. }
  split; [exact Hpos |].
  split; [apply Rmax_right; exact Hpos |].
  split; [| exact Hval].
  rewrite Hval; unfold sqrt_gamma_clamped.
  rewrite (sigma_ok self t Hne), Rmax_right by exact Hpos.
  unfold np_sqrt; destruct (Rlt_dec (snd f t + sigma self t) 0);
    [lra | reflexivity].
Qed.

End Paired.

(** ** The two-level system *)

Module TwoLevelFacts.
Import TwoLevel.

Ltac cunfold :=
  simpl;
  unfold one, proj0, proj1, mixed, lift1, lift2,
    Cadd, Csub, Cmul, Cconj, RtoC;
  simpl.

Ltac creal :=
  do 2 cunfold;
  repeat match goal with
         | |- Ok _ = Ok _ => apply f_equal
         | |- Diag _ _ = Diag _ _ => apply f_equal2
         | |- (_, _) = (_, _) => apply f_equal2
         end;
  first [lra | field].

Lemma Cabs_real (x : R) : Cabs (RtoC x) = Rabs x.
Proof.
  unfold Cabs, RtoC; simpl.
  replace (x * x + 0 * 0) with (Rsqr x) by (unfold Rsqr; lra).
  apply sqrt_Rsqr_abs.
Qed.

Lemma Csqrt_real (x : R) : 0 <= x -> Csqrt (RtoC x) = RtoC (sqrt x).
Proof.
  intros Hx; unfold Csqrt; rewrite Cabs_real, Rabs_right by lra.
  unfold RtoC; simpl.
  replace ((x + x) / 2) with x by lra.
  replace ((x - x) / 2) with 0 by lra.
  rewrite sqrt_0; f_equal; lra.
Qed.

Lemma close_refl (rtol atol : R) (z : C) :
  0 <= rtol -> 0 <= atol -> close rtol atol z z = true.
Proof.
  intros Hr Ha; unfold close.
  replace (Csub z z) with (RtoC 0) by (destruct z; creal).
  rewrite Cabs_real, Rabs_R0.
  assert (0 <= Cabs z) by apply sqrt_pos.
  destruct (Rle_dec 0 (atol + rtol * Cabs z)); [reflexivity | nra].
Qed.

Lemma close_real (rtol atol x y : R) :
  close rtol atol (RtoC x) (RtoC y) =
    if Rle_dec (Rabs (x - y)) (atol + rtol * Rabs y) then true else false.
Proof.
  unfold close.
  replace (Csub (RtoC x) (RtoC y)) with (RtoC (x - y)) by creal.
  rewrite !Cabs_real; reflexivity.
Qed.

Lemma tol_pos :
  0 <= completeness_rtol solver_options /\
  0 <= completeness_atol solver_options.
Proof. simpl; lra. Qed.

(** The operator sums of the three operator sets. *)
Lemma sum_A : sum_LdagL opsA = Ok one.
Proof. simpl; creal. Qed.

Lemma sum_B : sum_LdagL opsB = Ok one.
Proof. simpl; creal. Qed.

Lemma sum_P : sum_LdagL opsP = Ok proj0.
Proof. simpl; creal. Qed.

Lemma candidate_one : Cdiv_nat (tr one) (shape0 one) = Ok (RtoC 1).
Proof. unfold Cdiv_nat; simpl; creal. Qed.

Lemma candidate_P : Cdiv_nat (tr proj0) (shape0 proj0) = Ok (RtoC (1 / 2)).
Proof. unfold Cdiv_nat; simpl; creal. Qed.

Lemma complete_one :
  qeq (completeness_rtol solver_options) (completeness_atol solver_options)
      one (qscale (RtoC 1) (qeye_like one)) = true.
Proof.
  replace (qscale (RtoC 1) (qeye_like one)) with one by creal.
  destruct tol_pos as [Hr Ha].
  simpl qeq; rewrite !close_refl by assumption; reflexivity.
Qed.

Lemma incomplete_P :
  qeq (completeness_rtol solver_options) (completeness_atol solver_options)
      proj0 (qscale (RtoC (1 / 2)) (qeye_like proj0)) = false.
Proof.
  replace (qscale (RtoC (1 / 2)) (qeye_like proj0)) with mixed by creal.
  simpl qeq; unfold proj0, mixed; simpl d0; simpl d1.
  rewrite !close_real.
  replace (1 - 1 / 2) with (1 / 2) by lra.
  rewrite (Rabs_right (1 / 2)) by lra.
  destruct (Rle_dec (1 / 2) (1 / 100000000 + 1 / 100000 * (1 / 2)));
    [lra | reflexivity].
Qed.

Lemma eigen_P : py_max (eigenenergies proj0) = Ok 1.
Proof.
  simpl; rewrite Rmin_right, Rmax_left by lra.
  unfold py_max2; destruct (Rlt_dec 0 1); [reflexivity | lra].
Qed.

Lemma extra_P :
  sqrtm (qsub (qscale (RtoC 1) (qeye_like proj0)) proj0) = proj1.
Proof.
  replace (qsub (qscale (RtoC 1) (qeye_like proj0)) proj0) with proj1
    by creal.
  simpl; unfold lift1, proj1; simpl.
  rewrite !Csqrt_real by lra.
  rewrite sqrt_0, sqrt_1; reflexivity.
Qed.

Lemma check_A : _check_completeness solver_options opsA = Ok (1, None).
Proof.
  unfold _check_completeness; rewrite sum_A, candidate_one, complete_one.
  reflexivity.
Qed.

Lemma check_B : _check_completeness solver_options opsB = Ok (1, None).
Proof.
  unfold _check_completeness; rewrite sum_B, candidate_one, complete_one.
  reflexivity.
Qed.

Lemma check_P :
  _check_completeness solver_options opsP = Ok (1, Some proj1).
Proof.
  unfold _check_completeness.
  rewrite sum_P, candidate_P, incomplete_P, eigen_P.
  cbv zeta; rewrite extra_P; reflexivity.
Qed.

End TwoLevelFacts.

(** ** The completeness check *)

Section Completeness.

Context {Qobj : Type} {QL : QobjLib Qobj}.

Lemma check_proportional (opts : Options) ops (Omega : Qobj) (a0 : C) :
  sum_LdagL ops = Ok Omega ->
  Cdiv_nat (tr Omega) (shape0 Omega) = Ok a0 ->
  qeq (completeness_rtol opts) (completeness_atol opts)
      Omega (qscale a0 (qeye_like Omega)) = true ->
  _check_completeness opts ops = Ok (np_real a0, None).
Proof.
  intros Hsum Hcand Hsame; unfold _check_completeness.
  rewrite Hsum, Hcand, Hsame; reflexivity.
Qed.

Lemma check_augments (opts : Options) ops (Omega : Qobj) (a0 : C) (a : R) :
  sum_LdagL ops = Ok Omega ->
  Cdiv_nat (tr Omega) (shape0 Omega) = Ok a0 ->
  qeq (completeness_rtol opts) (completeness_atol opts)
      Omega (qscale a0 (qeye_like Omega)) = false ->
  py_max (eigenenergies Omega) = Ok a ->
  _check_completeness opts ops =
    Ok (a, Some (sqrtm (qsub (qscale (RtoC a) (qeye_like Omega)) Omega))).
Proof.
  intros Hsum Hcand Hdiff Hmax; unfold _check_completeness.
  rewrite Hsum, Hcand, Hdiff, Hmax; reflexivity.
Qed.

Lemma py_max_largest (l : list R) (a : R) :
  py_max l = Ok a -> In a l /\ forall e, In e l -> e <= a.
Proof.
  intros Hmax.
  assert (Hne : l <> []) by (intros ->; discriminate).
  destruct (py_max_ok l Hne) as (m & Hm & Hin & Hup).
  assert (m = a) by congruence; subst m; auto.
Qed.

Lemma fold_gram ops : forall (Ls : list Qobj) (X : Qobj),
  gram_sum Ls X ->
  gram_sum (Ls ++ map fst ops)
    (fold_left (fun acc (f : Qobj * (R -> R)) =>
                  qadd acc (qmul (dag (fst f)) (fst f))) ops X).
Proof.
  induction ops as [|f ops IH]; intros Ls X HX; simpl.
  - rewrite app_nil_r; exact HX.
  - replace (Ls ++ fst f :: map fst ops)
      with ((Ls ++ [fst f]) ++ map fst ops)
      by (rewrite <- app_assoc; reflexivity).
    apply IH; now constructor.
Qed.

(** On a non-empty sequence [sum_LdagL] returns the sum of the
    [L.dag() * L]. *)
Lemma sum_gram (ops : list (Qobj * (R -> R))) :
  ops <> [] ->
  exists Omega, sum_LdagL ops = Ok Omega /\ gram_sum (map fst ops) Omega.
Proof.
  destruct ops as [|[L0 g] ops]; [congruence | intros _].
  eexists; split; [reflexivity |].
  apply (fold_gram ops [L0]); constructor.
Qed.

Lemma Cdiv_nat_ok (z a0 : C) (n : nat) :
  Cdiv_nat z n = Ok a0 ->
  n <> 0%nat /\ a0 = (fst z / INR n, snd z / INR n).
Proof.
  unfold Cdiv_nat; destruct (Nat.eqb n 0) eqn:E; [discriminate |].
  intros [= <-]; split; [| reflexivity].
  now apply Nat.eqb_neq.
Qed.

(** C5. For a non-empty sequence of pairs the check computes [Omega], the
    sum of the [L.dag() * L], and [a0 = Omega.tr() / Omega.shape[0]].  If
    [Omega] equals [a0] times the identity within the configured
    tolerances, it returns the real part of [a0] (which is [a0] when the
    trace is real) and no extra operator.  Otherwise it returns the
    largest eigenvalue [a] of [Omega] and [L = sqrtm(a * identity -
    Omega)]; and for an operator library in which the square root [S] of
    [b * identity - X] satisfies [S.dag() * S = b * identity - X] whenever
    [X] is a sum of [M.dag() * M] and [b] its largest eigenvalue, in which
    [X + (Y - X) = Y], and whose comparison is reflexive, [Omega +
    L.dag() * L] equals [a] times the identity within the tolerances. *)
Theorem check_completeness_cases (opts : Options) ops (Hne : ops <> []) :
  let same := qeq (completeness_rtol opts) (completeness_atol opts) in
  exists Omega,
    sum_LdagL ops = Ok Omega /\
    gram_sum (map fst ops) Omega /\
    forall a0, Cdiv_nat (tr Omega) (shape0 Omega) = Ok a0 ->
      let identity := qeye_like Omega in
      a0 = (fst (tr Omega) / INR (shape0 Omega),
            snd (tr Omega) / INR (shape0 Omega)) /\
      (same Omega (qscale a0 identity) = true ->
         _check_completeness opts ops = Ok (np_real a0, None) /\
         (snd a0 = 0 -> RtoC (np_real a0) = a0)) /\
      (same Omega (qscale a0 identity) = false ->
         forall a, py_max (eigenenergies Omega) = Ok a ->
         let L := sqrtm (qsub (qscale (RtoC a) identity) Omega) in
         _check_completeness opts ops = Ok (a, Some L) /\
         In a (eigenenergies Omega) /\
         (forall e, In e (eigenenergies Omega) -> e <= a) /\
         ((forall Ls X b,
             gram_sum Ls X -> py_max (eigenenergies X) = Ok b ->
             let Y := qsub (qscale (RtoC b) (qeye_like X)) X in
             qmul (dag (sqrtm Y)) (sqrtm Y) = Y) ->
          (forall X Y : Qobj, qadd X (qsub Y X) = Y) ->
          (forall X : Qobj, same X X = true) ->
          same (qadd Omega (qmul (dag L) L)) (qscale (RtoC a) identity)
            = true)).
Proof.
  intros same.
  destruct (sum_gram ops Hne) as (Omega & Hsum & Hgram).
  exists Omega; split; [exact Hsum |]; split; [exact Hgram |].
  intros a0 Hcand identity.
  split; [apply (Cdiv_nat_ok _ _ _ Hcand) |]; split.
  - intros Hsame; split.
    + now apply check_proportional with Omega.
    + intros Him; destruct a0 as [x y]; simpl in *.
      unfold RtoC; congruence.
  - intros Hdiff a Hmax L.
    destruct (py_max_largest _ _ Hmax) as [Hin Hup].
    split; [now apply check_augments with a0 |].
    split; [exact Hin |]; split; [exact Hup |].
    intros Hsqrt Hsub Hrefl.
    pose proof (Hsqrt (map fst ops) Omega a Hgram Hmax) as HL.
    cbv zeta in HL; unfold L, identity.
    rewrite HL, Hsub; apply Hrefl.
Qed.

End Completeness.

(** ** The extra operator *)

(** Decide the comparisons of concrete reals met while evaluating. *)
Ltac rdec_at d :=
  first [ destruct d as [?|?]; [| exfalso; lra]
        | destruct d as [?|?]; [exfalso; lra |] ].

Ltac rdec :=
  repeat match goal with
         | |- context [Req_dec_T ?a ?b] => rdec_at (Req_dec_T a b)
         | |- context [Rlt_dec ?a ?b] => rdec_at (Rlt_dec a b)
         | |- context [Rle_dec ?a ?b] => rdec_at (Rle_dec a b)
         end.

Section ExtraOperator.

Context {Qobj Integ : Type} {QL : QobjLib Qobj}.
Implicit Types self : NonMarkovianMCSolver Qobj Integ.

(** When the check asks for an extra operator, the constructor appends it
    with the builtin [float] as its rate. *)
Lemma init_appends_float (i : Integ) ops opts (a : R) (L : Qobj) :
  _check_completeness opts ops = Ok (a, Some L) ->
  exists self,
    __init__ i ops opts = Ok self /\
    ops_and_rates self = ops ++ [(L, py_float)] /\
    _a_parameter self = a /\ _mu_c self = None.
Proof.
  intros Hcheck; unfold __init__; rewrite Hcheck.
  eexists; split; [reflexivity |]; simpl; auto.
Qed.

Lemma init_keeps (i : Integ) ops opts (a : R) :
  _check_completeness opts ops = Ok (a, None) ->
  exists self,
    __init__ i ops opts = Ok self /\
    ops_and_rates self = ops /\
    _a_parameter self = a /\ _mu_c self = None.
Proof.
  intros Hcheck; unfold __init__; rewrite Hcheck.
  eexists; split; [reflexivity |]; simpl; auto.
Qed.

(** What the comment in the constructor intends: a pair whose rate is
    zero at every time leaves the rate shift of the other pairs as it
    is. *)
Lemma zero_rate_keeps_shift self self' (L : Qobj) t :
  ops_and_rates self <> [] ->
  ops_and_rates self' = ops_and_rates self ++ [(L, fun _ => 0)] ->
  _rate_shift self' t = _rate_shift self t.
Proof.
  intros Hne E; unfold _rate_shift; rewrite E, map_app; simpl.
  destruct (ops_and_rates self) as [|f ops]; [congruence |]; simpl.
  rewrite fold_left_app; simpl.
  set (m := fold_left py_min2 _ _).
  f_equal; f_equal; f_equal.
  unfold py_min2.
  destruct (Rlt_dec 0 m), (Rlt_dec m 0); try lra; rdec; lra.
Qed.

End ExtraOperator.

(** C1, on the two-level system with the single operator [proj0] and the
    constant rate 1.0.  The constructor appends the extra operator [proj1]
    with the rate [float], and [float(t)] is [t], not zero: at [t = 1] the
    extra rate is 1 and the coefficient paired with the extra operator is
    [sqrt(1)], not 0; at [t = -1] the rate shift is 2 where the original
    pair alone gives 0, and the coefficient paired with the original
    operator is [sqrt(3)] instead of [sqrt(1)]. *)
Theorem extra_rate_is_float :
  exists self : NonMarkovianMCSolver TwoLevel.diag2 TwoLevel.frozen,
    __init__ (TwoLevel.idle 0) TwoLevel.opsP solver_options = Ok self /\
    ops_and_rates self = TwoLevel.opsP ++ [(TwoLevel.proj1, py_float)] /\
    Gamma self 1 1 = 1 /\
    Gamma self 1 1 <> 0 /\
    _sqrt_gamma self 1 py_float = Ok (Fin (sqrt 1)) /\
    _rate_shift self (-1) = Ok 2 /\
    _rate_shift (TwoLevel.with_ops TwoLevel.opsP) (-1) = Ok 0 /\
    _sqrt_gamma self (-1) (fun _ => 1) = Ok (Fin (sqrt 3)) /\
    _sqrt_gamma (TwoLevel.with_ops TwoLevel.opsP) (-1) (fun _ => 1)
      = Ok (Fin (sqrt 1)).
Proof.
  destruct (init_appends_float (TwoLevel.idle 0) _ _ _ _ TwoLevelFacts.check_P)
    as (self & Hinit & Hops & _).
  assert (Hshift : _rate_shift self (-1) = Ok 2).
  { unfold _rate_shift; rewrite Hops; simpl; unfold py_float, py_min2.
    rdec. rewrite Rabs_left by lra. f_equal; lra. }
  assert (Hshift0 : _rate_shift (TwoLevel.with_ops TwoLevel.opsP) (-1) = Ok 0).
  { unfold _rate_shift; simpl; unfold py_min2.
    rdec. rewrite Rabs_R0. f_equal; lra. }
  assert (Hshift1 : _rate_shift self 1 = Ok 0).
  { unfold _rate_shift; rewrite Hops; simpl; unfold py_float, py_min2.
    rdec. rewrite Rabs_R0. f_equal; lra. }
  exists self; repeat split; auto.
  - unfold Gamma; rewrite Hops; reflexivity.
  - unfold Gamma; rewrite Hops; simpl; unfold py_float; lra.
  - unfold _sqrt_gamma; rewrite Hshift1; unfold np_sqrt, py_float.
    rdec. do 3 f_equal; lra.
  - unfold _sqrt_gamma; rewrite Hshift; unfold np_sqrt.
    rdec. do 3 f_equal; lra.
  - unfold _sqrt_gamma; rewrite Hshift0; unfold np_sqrt.
    rdec. do 3 f_equal; lra.
Qed.

(** ** Trajectories *)

Section Trajectory.

Context {Qobj Integ Seed Gen : Type}.
Context {QL : QobjLib Qobj} {QD : Quadrature}
        {EN : Engine Qobj Integ Seed Gen}.
Implicit Types self : NonMarkovianMCSolver Qobj Integ.

Lemma cache_extends_refl self : cache_extends self self.
Proof. intros d Hd; exists d; auto. Qed.

Lemma cache_extends_trans self1 self2 self3 :
  cache_extends self1 self2 -> cache_extends self2 self3 ->
  cache_extends self1 self3.
Proof.
  intros H12 H23 d Hd.
  destruct (H12 d Hd) as (d2 & Hd2 & Hsub2).
  destruct (H23 d2 Hd2) as (d3 & Hd3 & Hsub3).
  exists d3; split; auto.
Qed.

Lemma cache_extends_integrator self (i : Integ) :
  cache_extends self (set_integrator self i).
Proof. intros d Hd; exists d; auto. Qed.

Lemma only_extends_refl self : only_extends self self.
Proof. repeat split; apply cache_extends_refl. Qed.

Lemma only_extends_trans self1 self2 self3 :
  only_extends self1 self2 -> only_extends self2 self3 ->
  only_extends self1 self3.
Proof.
  intros (Ho & Ha & Hc) (Ho' & Ha' & Hc'); repeat split; try congruence.
  eapply cache_extends_trans; eauto.
Qed.

Lemma only_extends_integrator self (i : Integ) :
  only_extends self (set_integrator self i).
Proof. repeat split; apply cache_extends_integrator. Qed.

Lemma continuous_frame self t r self' :
  _continuous_martingale t self = (r, self') ->
  only_extends self self' /\ _integrator self' = _integrator self.
Proof.
  unfold _continuous_martingale.
  destruct (_mu_c self) as [d|] eqn:Hd.
  2: { intros [= _ <-]; split; [apply only_extends_refl | reflexivity]. }
  destruct (dict_get d t) as [v|] eqn:Hv.
  { intros [= _ <-]; split; [apply only_extends_refl | reflexivity]. }
  destruct (py_max _) as [t0|e].
  2: { intros [= _ <-]; split; [apply only_extends_refl | reflexivity]. }
  destruct (quad _ t0 t) as [I|e].
  2: { intros [= _ <-]; split; [apply only_extends_refl | reflexivity]. }
  destruct (dict_get d t0) as [v0|].
  2: { intros [= _ <-]; split; [apply only_extends_refl | reflexivity]. }
  intros [= _ <-]; split; [| reflexivity].
  repeat split.
  intros d0 Hd0; rewrite Hd in Hd0; injection Hd0 as <-.
  eexists; split; [reflexivity |].
  intros k w Hk; rewrite dict_get_set_other; [exact Hk |].
  intros ->; congruence.
Qed.

(** A query succeeds once the cache holds a time at or before [t] and
    the quadrature succeeds. *)
Lemma continuous_total self d t :
  _mu_c self = Some d ->
  (exists k, In k (dict_keys d) /\ k <= t) ->
  (forall t0, exists I, quad (_rate_shift self) t0 t = Ok I) ->
  exists v self', _continuous_martingale t self = (Ok v, self').
Proof.
  intros Hd (k & Hk & Hle) Hquad.
  destruct (dict_get d t) as [v|] eqn:Hv.
  - exists v, self; now apply continuous_hit with d.
  - assert (Hlt : k < t).
    { destruct (Rle_lt_or_eq_dec _ _ Hle) as [H | ->]; [exact H |].
      destruct (dict_key_get d t Hk); congruence. }
    assert (Hne : earlier t d <> []).
    { intros E. assert (H : In k (earlier t d)) by (apply earlier_In; auto).
      rewrite E in H; exact H. }
    destruct (py_max_ok _ Hne) as (t0 & Hmax & Hin & Hup).
    apply earlier_In in Hin; destruct Hin as [Hkey Hlt0].
    destruct (dict_key_get d t0 Hkey) as (v0 & Hv0).
    destruct (Hquad t0) as (I & HI).
    unfold _continuous_martingale; rewrite Hd, Hv.
    fold (earlier t d); rewrite Hmax, HI, Hv0; eauto.
Qed.

Lemma discrete_factors_ext self self' collapses :
  ops_and_rates self' = ops_and_rates self ->
  discrete_factors self' collapses = discrete_factors self collapses.
Proof.
  intros E; induction collapses as [|[tk ik] cs IH]; simpl; [reflexivity |].
  unfold _rate_shift; rewrite E, IH; reflexivity.
Qed.

Lemma discrete_martingale_ext self self' collapses :
  ops_and_rates self' = ops_and_rates self ->
  _discrete_martingale self' collapses = _discrete_martingale self collapses.
Proof.
  intros E; unfold _discrete_martingale.
  rewrite (discrete_factors_ext self self' collapses E); reflexivity.
Qed.

Lemma current_frame self r self' :
  _current_martingale self = (r, self') ->
  only_extends self self' /\ _integrator self' = _integrator self.
Proof.
  unfold _current_martingale, bind.
  destruct (_continuous_martingale _ self) as [[v|e] self1] eqn:Hc.
  - apply continuous_frame in Hc.
    destruct (_discrete_martingale self1 _); intros [= _ <-]; exact Hc.
  - apply continuous_frame in Hc; intros [= _ <-]; exact Hc.
Qed.

Lemma current_value self mu_c self' :
  _continuous_martingale (integ_time (_integrator self)) self
    = (Ok mu_c, self') ->
  (forall c, In c (integ_collapses (_integrator self)) ->
             in_range self c /\ denominator self c <> 0) ->
  _current_martingale self =
    (Ok (mu_c * discrete_value self (integ_collapses (_integrator self))),
     self').
Proof.
  intros Hc Hwf; unfold _current_martingale, bind; rewrite Hc.
  destruct (continuous_frame _ _ _ _ Hc) as [(Hops & _) _].
  rewrite (discrete_martingale_ext self self' _ Hops).
  rewrite (discrete_martingale_ok self _ Hwf); reflexivity.
Qed.

(** [start] creates the cache afresh, with the start time mapped to 1. *)
Lemma start_resets self (state : Qobj) (t0 : R) (seed : option Seed) :
  exists self', start state t0 seed self = (Ok tt, self') /\
                fresh_cache t0 self' /\
                ops_and_rates self' = ops_and_rates self.
Proof. eexists; split; [reflexivity |]; split; reflexivity. Qed.

(** C9. Once a trajectory has started (the cache holds a time at or
    before the time the engine reached), the quadrature succeeds and the
    recorded events have a non-zero shifted rate, [step] returns the
    propagated state, a ket being converted to its density matrix,
    multiplied by the current martingale [mu]; the trace being linear and
    the propagated state of trace one, the trace of the returned operator
    is [mu]. *)
Theorem step_returns_weighted_state self t (state : Qobj) (i : Integ)
    (d : dict)
    (Hstep : super_step t (_integrator self) = (Ok state, i))
    (Hinit : _mu_c self = Some d)
    (Hkey : exists k, In k (dict_keys d) /\ k <= integ_time i)
    (Hquad : forall t0,
        exists I, quad (_rate_shift self) t0 (integ_time i) = Ok I)
    (Hjumps : forall c, In c (integ_collapses i) ->
                        in_range self c /\ denominator self c <> 0)
    (Hlinear : forall (x : R) (rho : Qobj),
        tr (qscale (RtoC x) rho) = Cmul (RtoC x) (tr rho))
    (Hunit : tr (_2dm state) = RtoC 1) :
  exists mu_c self',
    _continuous_martingale (integ_time i) (set_integrator self i)
      = (Ok mu_c, self') /\
    let mu := mu_c * discrete_value self (integ_collapses i) in
    _current_martingale (set_integrator self i) = (Ok mu, self') /\
    step t self = (Ok (qscale (RtoC mu) (_2dm state)), self') /\
    (isket state = true -> _2dm state = ket2dm state) /\
    (isket state = false -> _2dm state = state) /\
    tr (qscale (RtoC mu) (_2dm state)) = RtoC mu.
Proof.
  destruct (continuous_total (set_integrator self i) d (integ_time i))
    as (mu_c & self' & Hc); auto.
  exists mu_c, self'; split; [exact Hc |].
  assert (Hcur : _current_martingale (set_integrator self i) =
                 (Ok (mu_c * discrete_value self (integ_collapses i)),
                  self')).
  { apply (current_value (set_integrator self i)); [exact Hc |].
    exact Hjumps. }
  cbv zeta; repeat split.
  - exact Hcur.
  - unfold step; rewrite Hstep; unfold bind; rewrite Hcur; reflexivity.
  - intros Hk; unfold _2dm; rewrite Hk; reflexivity.
  - intros Hk; unfold _2dm; rewrite Hk; reflexivity.
  - rewrite Hlinear, Hunit; unfold Cmul, RtoC; simpl; f_equal; lra.
Qed.

Lemma traj_loop_frame ts : forall (result : TrajResult Qobj) self r self',
  traj_loop ts result self = (r, self') -> only_extends self self'.
Proof.
  induction ts as [|t ts IH]; intros result self r self'; simpl.
  - intros [= _ <-]; apply only_extends_refl.
  - destruct (integ_integrate t (_integrator self)) as [[t' state] i].
    unfold bind.
    destruct (_current_martingale (set_integrator self i))
      as [[mu|e] self1] eqn:Hcur.
    + apply current_frame in Hcur; destruct Hcur as [Hext _].
      intros Hloop; apply IH in Hloop.
      eapply only_extends_trans; [| exact Hloop].
      eapply only_extends_trans; [apply only_extends_integrator | exact Hext].
    + apply current_frame in Hcur; destruct Hcur as [Hext _].
      intros [= _ <-].
      eapply only_extends_trans; [apply only_extends_integrator | exact Hext].
Qed.

(** A trajectory neither resets nor discards the cache. *)
Lemma run_one_frame (seed : Seed) (state : Qobj) tlist self r self' :
  _run_one_traj seed state tlist self = (r, self') ->
  only_extends self self'.
Proof.
  unfold _run_one_traj; destruct tlist as [|t0 rest].
  - intros [= _ <-]; apply only_extends_refl.
  - unfold bind.
    destruct (traj_loop rest _ _) as [[result|e] self1] eqn:Hloop;
      apply traj_loop_frame in Hloop; intros [= _ <-];
      (eapply only_extends_trans;
       [apply only_extends_integrator | exact Hloop]).
Qed.

Lemma precompute_frame ts : forall self r self',
  precompute ts self = (r, self') -> only_extends self self'.
Proof.
  induction ts as [|t ts IH]; intros self r self'; simpl.
  - intros [= _ <-]; apply only_extends_refl.
  - unfold bind.
    destruct (_continuous_martingale t self) as [[v|e] self1] eqn:Hc;
      apply continuous_frame in Hc; destruct Hc as [Hext _].
    + intros Hrest; apply IH in Hrest.
      eapply only_extends_trans; eauto.
    + intros [= _ <-]; exact Hext.
Qed.

Lemma entry_states_extend {A : Type} (run_one : Seed -> M Qobj Integ A)
    (seeds : list Seed) :
  (forall seed s r s', run_one seed s = (r, s') -> only_extends s s') ->
  forall self,
    Forall (only_extends self) (entry_states run_one seeds self).
Proof.
  intros Hframe; induction seeds as [|seed seeds IH]; intros self; simpl.
  - constructor.
  - constructor; [apply only_extends_refl |].
    destruct (run_one seed self) as [[a|e] self1] eqn:Hone; [| constructor].
    apply Hframe in Hone.
    eapply Forall_impl; [| apply IH].
    intros s Hs; eapply only_extends_trans; eauto.
Qed.

(** [entry_states] follows [super_run]: a run that returns has entered
    one solver state per seed. *)
Lemma entry_states_length {A : Type} (run_one : Seed -> M Qobj Integ A)
    (seeds : list Seed) : forall self rs self',
  super_run run_one seeds self = (Ok rs, self') ->
  List.length (entry_states run_one seeds self) = List.length seeds /\
  List.length rs = List.length seeds.
Proof.
  induction seeds as [|seed seeds IH]; intros self rs self'; simpl.
  - intros [= <- _]; auto.
  - unfold bind.
    destruct (run_one seed self) as [[a|e] self1]; [| discriminate].
    destruct (super_run run_one seeds self1) as [[rs'|e] self2] eqn:Hrest;
      [| discriminate].
    unfold ret; intros [= <- _].
    destruct (IH _ _ _ Hrest) as [H1 H2]; simpl; auto.
Qed.

Lemma keeps_cache_refl self : keeps_cache self self.
Proof. split; [apply cache_extends_refl | auto]. Qed.

Lemma keeps_cache_trans self1 self2 self3 :
  keeps_cache self1 self2 -> keeps_cache self2 self3 ->
  keeps_cache self1 self3.
Proof.
  intros [He Hn] [He' Hn']; split; [| auto].
  eapply cache_extends_trans; eauto.
Qed.

Lemma keeps_cache_integrator self (i : Integ) :
  keeps_cache self (set_integrator self i).
Proof. split; [apply cache_extends_integrator | auto]. Qed.

Lemma continuous_keeps self t r self' :
  _continuous_martingale t self = (r, self') -> keeps_cache self self'.
Proof.
  intros Hq; split.
  - apply continuous_frame in Hq; destruct Hq as [(_ & _ & Hc) _]; exact Hc.
  - intros Hnone; rewrite (continuous_uninitialized self t Hnone) in Hq.
    injection Hq as _ <-; exact Hnone.
Qed.

Lemma current_keeps self r self' :
  _current_martingale self = (r, self') -> keeps_cache self self'.
Proof.
  unfold _current_martingale, bind.
  destruct (_continuous_martingale _ self) as [[v|e] self1] eqn:Hc;
    apply continuous_keeps in Hc.
  - destruct (_discrete_martingale self1 _); intros [= _ <-]; exact Hc.
  - intros [= _ <-]; exact Hc.
Qed.

Lemma step_keeps self t r self' :
  step t self = (r, self') -> keeps_cache self self'.
Proof.
  unfold step.
  destruct (super_step t (_integrator self)) as [[state|e] i].
  - unfold bind.
    destruct (_current_martingale (set_integrator self i))
      as [[mu|e] self1] eqn:Hcur;
      apply current_keeps in Hcur; intros [= _ <-];
      (eapply keeps_cache_trans; [apply keeps_cache_integrator | exact Hcur]).
  - intros [= _ <-]; apply keeps_cache_integrator.
Qed.

Lemma traj_loop_keeps ts : forall (result : TrajResult Qobj) self r self',
  traj_loop ts result self = (r, self') -> keeps_cache self self'.
Proof.
  induction ts as [|t ts IH]; intros result self r self'; simpl.
  - intros [= _ <-]; apply keeps_cache_refl.
  - destruct (integ_integrate t (_integrator self)) as [[t' state] i].
    unfold bind.
    destruct (_current_martingale (set_integrator self i))
      as [[mu|e] self1] eqn:Hcur; apply current_keeps in Hcur.
    + intros Hloop; apply IH in Hloop.
      eapply keeps_cache_trans; [| exact Hloop].
      eapply keeps_cache_trans; [apply keeps_cache_integrator | exact Hcur].
    + intros [= _ <-].
      eapply keeps_cache_trans; [apply keeps_cache_integrator | exact Hcur].
Qed.

Lemma run_one_keeps (seed : Seed) (state : Qobj) tlist self r self' :
  _run_one_traj seed state tlist self = (r, self') -> keeps_cache self self'.
Proof.
  unfold _run_one_traj; destruct tlist as [|t0 rest].
  - intros [= _ <-]; apply keeps_cache_refl.
  - unfold bind.
    destruct (traj_loop rest _ _) as [[result|e] self1] eqn:Hloop;
      apply traj_loop_keeps in Hloop; intros [= _ <-];
      (eapply keeps_cache_trans;
       [apply keeps_cache_integrator | exact Hloop]).
Qed.

(** A returned value has been stored. *)
Lemma continuous_stores self t v self' :
  _continuous_martingale t self = (Ok v, self') ->
  exists d', _mu_c self' = Some d' /\ dict_get d' t = Some v.
Proof.
  unfold _continuous_martingale.
  destruct (_mu_c self) as [d|] eqn:Hd; [| discriminate].
  destruct (dict_get d t) as [w|] eqn:Hw.
  { intros [= <- <-]; exists d; auto. }
  destruct (py_max _) as [t0|e]; [| discriminate].
  destruct (quad _ t0 t) as [I|e]; [| discriminate].
  destruct (dict_get d t0) as [v0|]; [| discriminate].
  intros [= <- <-]; eexists; split; [reflexivity |].
  apply dict_get_set_same.
Qed.

(** After the precomputation every time it went through is cached. *)
Lemma precompute_cached ts : forall self self',
  precompute ts self = (Ok tt, self') ->
  forall t, In t ts ->
    exists d' v, _mu_c self' = Some d' /\ dict_get d' t = Some v.
Proof.
  induction ts as [|t1 ts IH]; intros self self'; simpl; [intros _ t [] |].
  unfold bind.
  destruct (_continuous_martingale t1 self) as [[v|e] self1] eqn:Hc;
    [| discriminate].
  intros Hrest t [<- | Ht]; [| exact (IH self1 self' Hrest t Ht)].
  destruct (continuous_stores _ _ _ _ Hc) as (d1 & Hd1 & Hv).
  apply precompute_frame in Hrest; destruct Hrest as (_ & _ & Hext).
  destruct (Hext d1 Hd1) as (d' & Hd' & Hsub).
  exists d', v; auto.
Qed.

(** C8, as the code has it.  [run] creates the cache once, as
    [{tlist[0]: 1}], and fills it over the remaining times before it hands
    the solver to the driver of the base class, so that every time of
    [tlist] is cached; [start] likewise creates a fresh cache.  No other
    method creates, resets or discards the cache: [_continuous_martingale],
    [_current_martingale], [step] and [_run_one_traj] leave an
    uninitialized cache uninitialized and keep every entry of an
    initialized one, whatever their outcome.  So the cache is not per
    trajectory: with the driver calling [_run_one_traj] once per seed on
    the solver, each trajectory is entered with a cache holding every
    entry that [run] prepared. *)
Theorem cache_shared_by_trajectories (state : Qobj) (seeds : list Seed)
    self (t0 : R) (rest : list R) self1
    (Hpre : precompute rest (set_mu_c self [(t0, 1)]) = (Ok tt, self1)) :
  let run_one := fun seed => _run_one_traj seed state (t0 :: rest) in
  fresh_cache t0 (set_mu_c self [(t0, 1)]) /\
  (exists d1, _mu_c self1 = Some d1 /\ dict_get d1 t0 = Some 1 /\
              forall t, In t (t0 :: rest) -> In t (dict_keys d1)) /\
  run state (t0 :: rest) seeds self = super_run run_one seeds self1 /\
  run_entry_states state (t0 :: rest) seeds self
    = entry_states run_one seeds self1 /\
  Forall (cache_extends self1)
         (run_entry_states state (t0 :: rest) seeds self) /\
  (forall (st : Qobj) t seed self0,
     fresh_cache t (snd (start st t seed self0))) /\
  (forall t self0 r self0', _continuous_martingale t self0 = (r, self0') ->
                            keeps_cache self0 self0') /\
  (forall self0 r self0', _current_martingale self0 = (r, self0') ->
                          keeps_cache self0 self0') /\
  (forall t self0 r self0', step t self0 = (r, self0') ->
                            keeps_cache self0 self0') /\
  (forall seed st tl self0 r self0',
     _run_one_traj seed st tl self0 = (r, self0') ->
     keeps_cache self0 self0').
Proof.
  intros run_one.
  assert (Hframe : forall seed s r s',
             run_one seed s = (r, s') -> only_extends s s').
  { intros seed s r s'; apply run_one_frame. }
  split; [reflexivity |].
  split.
  { pose proof (precompute_frame _ _ _ _ Hpre) as (_ & _ & Hc).
    destruct (Hc [(t0, 1)] eq_refl) as (d1 & Hd1 & Hsub).
    exists d1; split; [exact Hd1 |].
    assert (H0 : dict_get d1 t0 = Some 1).
    { apply Hsub; simpl; destruct (Req_dec_T t0 t0); congruence. }
    split; [exact H0 |].
    intros t [<- | Ht]; [now apply dict_get_key with 1 |].
    destruct (precompute_cached rest _ _ Hpre t Ht) as (d' & v & Hd' & Hv).
    assert (d' = d1) by congruence; subst d'.
    now apply dict_get_key with v. }
  split; [unfold run, bind; rewrite Hpre; reflexivity |].
  split; [unfold run_entry_states; rewrite Hpre; reflexivity |].
  split.
  { unfold run_entry_states; rewrite Hpre.
    eapply Forall_impl; [| apply (entry_states_extend run_one seeds Hframe)].
    intros s (_ & _ & Hc); exact Hc. }
  split; [intros st t seed s; reflexivity |].
  split; [intros t s r s'; apply continuous_keeps |].
  split; [intros s r s'; apply current_keeps |].
  split; [intros t s r s'; apply step_keeps |].
  intros seed st tl s r s'; apply run_one_keeps.
Qed.

End Trajectory.

(** ** The scenarios, evaluated *)

Section Scenarios.

Import TwoLevel TwoLevelFacts.

Lemma shift_A cache i t : _rate_shift (scenarioA cache i) t = Ok 1.
Proof.
  unfold _rate_shift; simpl; unfold py_min2; rdec.
  rewrite Rabs_left by lra; f_equal; lra.
Qed.

Lemma shift_Z t : _rate_shift (with_ops opsZ) t = Ok 0.
Proof.
  unfold _rate_shift; simpl; unfold py_min2; rdec.
  rewrite Rabs_R0; f_equal; lra.
Qed.

Lemma quad_A cache i t0 t :
  quad (_rate_shift (scenarioA cache i)) t0 t = Ok (t - t0).
Proof. unfold quad, midpoint; rewrite shift_A; f_equal; lra. Qed.

(** The constructor on the operators of scenario A: [a = 1], no extra
    operator. *)
Lemma init_A :
  __init__ (idle 0) opsA solver_options = Ok (scenarioA None (idle 0)).
Proof. unfold __init__; rewrite check_A; reflexivity. Qed.

Lemma init_B :
  __init__ (idle 0) opsB solver_options = Ok (scenarioB None (idle 0)).
Proof. unfold __init__; rewrite check_B; reflexivity. Qed.

(** Scenario A, after [start] at 0: the continuous martingale at 1 is
    [exp(a * 1)]. *)
Lemma continuous_A i :
  _continuous_martingale 1 (scenarioA (Some [(0, 1)]) i) =
    (Ok (1 * exp (1 * (1 - 0))),
     scenarioA (Some [(0, 1); (1, 1 * exp (1 * (1 - 0)))]) i).
Proof.
  rewrite (continuous_miss _ [(0, 1)] 1 0 1 (1 - 0)).
  - unfold set_mu_c, scenarioA; simpl; rdec; reflexivity.
  - reflexivity.
  - simpl; rdec; reflexivity.
  - simpl; rdec; reflexivity.
  - lra.
  - simpl; intros k [<- | []] _; lra.
  - apply quad_A.
Qed.

End Scenarios.

(** The rate shift of scenario B at [t = 0.5]. *)
Lemma rate_shift_nonneg_witness :
  exists m,
    py_min (rates_at (TwoLevel.with_ops TwoLevel.opsB) (1 / 2)) = Ok m /\
    In m (rates_at (TwoLevel.with_ops TwoLevel.opsB) (1 / 2)) /\
    (forall f, In f TwoLevel.opsB -> m <= snd f (1 / 2)) /\
    _rate_shift (TwoLevel.with_ops TwoLevel.opsB) (1 / 2)
      = Ok (2 * Rmax 0 (- m)) /\
    0 <= 2 * Rmax 0 (- m) /\
    forall f, In f TwoLevel.opsB -> 0 <= snd f (1 / 2) + 2 * Rmax 0 (- m).
Proof.
  apply (rate_shift_nonneg (TwoLevel.with_ops TwoLevel.opsB) (1 / 2)).
  discriminate.
Defined.

(** Scenario A started at 0: a hit at 0, a miss at 1. *)
Lemma continuous_martingale_cached_witness :
  let self := TwoLevel.scenarioA (Some [(0, 1)]) (TwoLevel.idle 0) in
  let v := 1 * exp (1 * (1 - 0)) in
  _continuous_martingale 0 self = (Ok 1, self) /\
  exists self' d',
    _continuous_martingale 1 self = (Ok v, self') /\
    _mu_c self' = Some d' /\
    dict_get d' 1 = Some v /\
    dict_get d' 0 = Some 1 /\
    _continuous_martingale 1 self' = (Ok v, self').
Proof.
  intros self v.
  destruct (continuous_martingale_cached self [(0, 1)] 0 eq_refl)
    as [Hhit _].
  destruct (continuous_martingale_cached self [(0, 1)] 1 eq_refl)
    as [_ Hmiss].
  split.
  - apply Hhit; simpl; rdec; reflexivity.
  - destruct (Hmiss 0 1 (1 - 0))
      as (self' & d' & Hval & Hd' & Hget & Hother & _ & _ & _ & _ & Hagain).
    + simpl; rdec; reflexivity.
    + simpl; rdec; reflexivity.
    + lra.
    + simpl; intros k [<- | []] _; lra.
    + apply quad_A.
    + exists self', d'.
      split; [exact Hval |]; split; [exact Hd' |]; split; [exact Hget |].
      split; [| exact Hagain].
      rewrite Hother by lra; simpl; rdec; reflexivity.
Defined.

(** A solver that was never started, and a query before the start time. *)
Lemma continuous_martingale_fails_witness :
  _continuous_martingale 1 (TwoLevel.scenarioA None (TwoLevel.idle 0)) =
    (Raise (RuntimeError start_first_msg),
     TwoLevel.scenarioA None (TwoLevel.idle 0)) /\
  _continuous_martingale 0 (TwoLevel.scenarioA (Some [(1, 1)]) (TwoLevel.idle 1))
    = (Raise (ValueError backwards_msg),
       TwoLevel.scenarioA (Some [(1, 1)]) (TwoLevel.idle 1)).
Proof.
  split.
  - apply (continuous_martingale_fails
             (TwoLevel.scenarioA None (TwoLevel.idle 0)) 1).
    reflexivity.
  - apply (continuous_martingale_fails
             (TwoLevel.scenarioA (Some [(1, 1)]) (TwoLevel.idle 1)) 0)
      with (d := [(1, 1)]).
    + reflexivity.
    + simpl; intros k [<- | []]; lra.
Defined.

Section MoreScenarios.

Import TwoLevel TwoLevelFacts.

Lemma sigma_B cache i t : sigma (scenarioB cache i) t = 4.
Proof.
  unfold sigma.
  rewrite (scenario_B_shift (scenarioB cache i) proj0 proj1 t eq_refl).
  reflexivity.
Qed.

Lemma jump_B_ok cache i c :
  In c [(1 / 2, 1%nat)] ->
  in_range (scenarioB cache i) c /\ denominator (scenarioB cache i) c <> 0.
Proof.
  intros [<- | []]; split.
  - unfold in_range; simpl; lia.
  - unfold denominator; rewrite sigma_B; unfold Gamma; simpl; lra.
Qed.

Lemma jump_Z_range c :
  In c [(0, 0%nat)] -> in_range (with_ops opsZ) c.
Proof. intros [<- | []]; unfold in_range; simpl; lia. Qed.

Lemma sigma_Z t : sigma (with_ops opsZ) t = 0.
Proof. unfold sigma; rewrite shift_Z; reflexivity. Qed.

Lemma trace_linear (x : R) (rho : diag2) :
  tr (qscale (RtoC x) rho) = Cmul (RtoC x) (tr rho).
Proof. destruct rho as [[a b] [c d]]; creal. Qed.

Lemma trace_mixed : tr (_2dm mixed) = RtoC 1.
Proof. unfold _2dm; creal. Qed.

Lemma quad_B cache i t0 t :
  quad (_rate_shift (scenarioB cache i)) t0 t = Ok ((t - t0) * 4).
Proof.
  unfold quad, midpoint.
  rewrite (scenario_B_shift (scenarioB cache i) proj0 proj1 _ eq_refl).
  reflexivity.
Qed.

End MoreScenarios.

(** Scenario B with one jump of the second operator at [t = 0.5]. *)
Lemma discrete_martingale_product_witness :
  let self := TwoLevel.scenarioB None (TwoLevel.idle 0) in
  _discrete_martingale self [] = Ok 1 /\
  _discrete_martingale self [(1 / 2, 1%nat)]
    = Ok (discrete_value self [(1 / 2, 1%nat)]) /\
  _rate_shift self (1 / 2) = Ok 4 /\
  _discrete_martingale self [(1 / 2, 1%nat)] = Ok (-1).
Proof.
  intros self.
  destruct (discrete_martingale_product TwoLevel.diag2 TwoLevel.frozen)
    as (Hnil & Hprod & HB).
  destruct (HB self TwoLevel.proj0 TwoLevel.proj1 eq_refl) as [Hshift Hjump].
  split; [| split; [| split]].
  - apply Hnil.
  - apply Hprod; apply jump_B_ok.
  - apply Hshift.
  - exact Hjump.
Defined.

(** A jump of an operator whose rate is 0 while the rate shift is 0. *)
Lemma discrete_martingale_unguarded_witness :
  let self := TwoLevel.with_ops TwoLevel.opsZ in
  discrete_factor self (0, 0%nat) = py_div 0 0 /\
  py_div 0 0 = Raise ZeroDivisionError /\
  _discrete_martingale self [(0, 0%nat)] = Raise ZeroDivisionError.
Proof.
  intros self.
  destruct (discrete_martingale_unguarded TwoLevel.diag2 TwoLevel.frozen
              self [(0, 0%nat)] jump_Z_range) as (_ & Hzero & _).
  apply (Hzero (0, 0%nat)).
  - now left.
  - reflexivity.
  - apply sigma_Z.
Defined.

(** The diagonal two-level operators satisfy the contracts of the
    operator library. *)
Section DiagonalLibrary.

Import TwoLevel TwoLevelFacts.

Lemma gram_real Ls (X : diag2) :
  gram_sum Ls X ->
  (snd (d0 X) = 0 /\ 0 <= fst (d0 X)) /\
  (snd (d1 X) = 0 /\ 0 <= fst (d1 X)).
Proof.
  induction 1 as [[[a b] [c d]] | Ls X [[a b] [c d]] _ IH].
  - simpl; repeat split; try ring; nra.
  - destruct IH as [[Hi0 Hr0] [Hi1 Hr1]].
    destruct X as [[x0 i0] [x1 i1]]; simpl in *; subst i0 i1.
    repeat split; try ring; nra.
Qed.

Lemma Csqrt_of_real (z : C) :
  snd z = 0 -> 0 <= fst z -> Csqrt z = RtoC (sqrt (fst z)).
Proof.
  destruct z as [x y]; simpl; intros -> Hx.
  exact (Csqrt_real x Hx).
Qed.

Lemma square_of_root (y : C) :
  snd y = 0 -> 0 <= fst y -> Cmul (Cconj (Csqrt y)) (Csqrt y) = y.
Proof.
  intros Hi Hr; rewrite (Csqrt_of_real y Hi Hr).
  destruct y as [r i]; simpl in *; subst i.
  unfold Cmul, Cconj, RtoC; simpl.
  pose proof (sqrt_sqrt r Hr) as Hs.
  apply f_equal2; [rewrite <- Hs at 3; ring | ring].
Qed.

Lemma diag_sqrt_contract Ls (X : diag2) (b : R) :
  gram_sum Ls X -> py_max (eigenenergies X) = Ok b ->
  let Y := qsub (qscale (RtoC b) (qeye_like X)) X in
  qmul (dag (sqrtm Y)) (sqrtm Y) = Y.
Proof.
  intros Hgram Hmax Y.
  destruct (gram_real Ls X Hgram) as [[Hi0 Hr0] [Hi1 Hr1]].
  destruct (py_max_largest _ _ Hmax) as [_ Hup].
  assert (Hb : Rmax (fst (d0 X)) (fst (d1 X)) <= b).
  { apply Hup; simpl; right; left; reflexivity. }
  pose proof (Rmax_l (fst (d0 X)) (fst (d1 X))) as Hl.
  pose proof (Rmax_r (fst (d0 X)) (fst (d1 X))) as Hr.
  unfold Y; simpl; unfold lift1, lift2; simpl.
  apply f_equal2; apply square_of_root;
    unfold Csub, Cmul, RtoC; simpl; lra.
Qed.

Lemma diag_add_sub (X Y : diag2) : qadd X (qsub Y X) = Y.
Proof.
  destruct X as [[a b] [c d]], Y as [[a' b'] [c' d']].
  simpl; unfold lift2, Cadd, Csub; simpl.
  apply f_equal2; apply f_equal2; lra.
Qed.

Lemma diag_same_refl (X : diag2) :
  qeq (completeness_rtol solver_options) (completeness_atol solver_options)
      X X = true.
Proof.
  destruct tol_pos as [Hr Ha].
  simpl qeq; rewrite !close_refl by assumption; reflexivity.
Qed.

End DiagonalLibrary.

(** The operators of scenario A pass the check; the single projector does
    not, and the extra operator completes it. *)
Lemma check_completeness_cases_witness :
  _check_completeness solver_options TwoLevel.opsA = Ok (1, None) /\
  _check_completeness solver_options TwoLevel.opsP
    = Ok (1, Some (sqrtm (qsub (qscale (RtoC 1) (qeye_like TwoLevel.proj0))
                               TwoLevel.proj0))) /\
  qeq (completeness_rtol solver_options) (completeness_atol solver_options)
      (qadd TwoLevel.proj0
            (qmul (dag (sqrtm (qsub (qscale (RtoC 1)
                                            (qeye_like TwoLevel.proj0))
                                    TwoLevel.proj0)))
                  (sqrtm (qsub (qscale (RtoC 1) (qeye_like TwoLevel.proj0))
                               TwoLevel.proj0))))
      (qscale (RtoC 1) (qeye_like TwoLevel.proj0)) = true.
Proof.
  assert (HneA : TwoLevel.opsA <> []) by discriminate.
  assert (HneP : TwoLevel.opsP <> []) by discriminate.
  destruct (check_completeness_cases solver_options TwoLevel.opsA HneA)
    as (OmegaA & HsumA & _ & HA).
  rewrite TwoLevelFacts.sum_A in HsumA; injection HsumA as <-.
  destruct (HA (RtoC 1) TwoLevelFacts.candidate_one) as (_ & HA1 & _).
  destruct (HA1 TwoLevelFacts.complete_one) as [HcheckA _].
  destruct (check_completeness_cases solver_options TwoLevel.opsP HneP)
    as (OmegaP & HsumP & _ & HP).
  rewrite TwoLevelFacts.sum_P in HsumP; injection HsumP as <-.
  destruct (HP (RtoC (1 / 2)) TwoLevelFacts.candidate_P) as (_ & _ & HP2).
  destruct (HP2 TwoLevelFacts.incomplete_P 1 TwoLevelFacts.eigen_P)
    as (HcheckP & _ & _ & Hid).
  split; [exact HcheckA | split; [exact HcheckP |]].
  apply Hid.
  - exact diag_sqrt_contract.
  - exact diag_add_sub.
  - exact diag_same_refl.
Defined.

(** Scenario B at [t = 0.5]: the coefficient of the second operator. *)
Lemma coefficient_clamp_free_witness :
  let self := TwoLevel.with_ops TwoLevel.opsB in
  0 <= -2 + sigma self (1 / 2) /\
  Rmax 0 (-2 + sigma self (1 / 2)) = -2 + sigma self (1 / 2) /\
  _sqrt_gamma self (1 / 2) (fun _ => -2)
    = sqrt_gamma_clamped self (1 / 2) (fun _ => -2) /\
  _sqrt_gamma self (1 / 2) (fun _ => -2)
    = Ok (Fin (sqrt (-2 + sigma self (1 / 2)))).
Proof.
  intros self.
  apply (coefficient_clamp_free self (1 / 2)
           (TwoLevel.proj1, fun _ : R => -2)).
  simpl; right; left; reflexivity.
Defined.

Section RunScenario.

Import TwoLevel TwoLevelFacts.

Lemma precompute_A :
  precompute [1] (set_mu_c (scenarioA None (idle 0)) [(0, 1)])
    = (Ok tt, scenarioA (Some cacheA) (idle 0)).
Proof.
  change (set_mu_c (scenarioA None (idle 0)) [(0, 1)])
    with (scenarioA (Some [(0, 1)]) (idle 0)).
  simpl precompute; unfold bind; rewrite continuous_A; reflexivity.
Qed.

Lemma current_A i :
  now i = 1 -> jumps i = [] ->
  _current_martingale (scenarioA (Some cacheA) i)
    = (Ok (1 * exp (1 * (1 - 0)) * 1), scenarioA (Some cacheA) i).
Proof.
  intros Hnow Hjumps.
  unfold _current_martingale, bind; simpl integ_time; simpl integ_collapses.
  rewrite Hnow, Hjumps.
  rewrite (continuous_hit _ cacheA 1 (1 * exp (1 * (1 - 0)))).
  - reflexivity.
  - reflexivity.
  - unfold cacheA; simpl; rdec; reflexivity.
Qed.

(** A trajectory of scenario A over the times 0, 1 leaves the cache as it
    found it. *)
Lemma traj_A (seed : nat) i :
  exists r,
    _run_one_traj seed mixed [0; 1] (scenarioA (Some cacheA) i)
      = (Ok r, scenarioA (Some cacheA) (idle 1)).
Proof.
  unfold _run_one_traj, bind; simpl traj_loop.
  match goal with
  | |- context [bind _current_martingale ?k ?s] =>
      change s with (scenarioA (Some cacheA) (idle 1))
  end.
  unfold bind; rewrite current_A by reflexivity.
  unfold ret; eexists; reflexivity.
Qed.

End RunScenario.

(** C8, as stated, fails: in a run of scenario A over the times 0, 1 with
    two trajectories, both trajectories are entered with the cache that
    [run] filled before the first of them, not with a fresh cache, and the
    second finds the cache that the first left. *)
Lemma cache_not_fresh_per_trajectory :
  exists s1 s2 r1,
    run_entry_states TwoLevel.mixed [0; 1] [1%nat; 2%nat]
      (TwoLevel.scenarioA None (TwoLevel.idle 0)) = [s1; s2] /\
    _run_one_traj 1%nat TwoLevel.mixed [0; 1] s1 = (Ok r1, s2) /\
    _mu_c s1 = Some TwoLevel.cacheA /\
    _mu_c s2 = Some TwoLevel.cacheA /\
    ~ fresh_cache 0 s1 /\
    ~ fresh_cache 0 s2.
Proof.
  destruct (traj_A 1%nat (TwoLevel.idle 0)) as (r1 & H1).
  destruct (traj_A 2%nat (TwoLevel.idle 1)) as (r2 & H2).
  exists (TwoLevel.scenarioA (Some TwoLevel.cacheA) (TwoLevel.idle 0)),
         (TwoLevel.scenarioA (Some TwoLevel.cacheA) (TwoLevel.idle 1)), r1.
  split; [| split; [exact H1 | split; [reflexivity | split; [reflexivity |]]]].
  - unfold run_entry_states; rewrite precompute_A.
    cbn [entry_states]; rewrite H1; cbn [entry_states]; rewrite H2.
    reflexivity.
  - split; unfold fresh_cache, TwoLevel.cacheA; simpl; discriminate.
Qed.

(** A run of scenario A over the times 0, 1 with two trajectories. *)
Lemma cache_shared_by_trajectories_witness :
  let self := TwoLevel.scenarioA None (TwoLevel.idle 0) in
  let self1 := TwoLevel.scenarioA (Some TwoLevel.cacheA) (TwoLevel.idle 0) in
  let run_one := fun seed : nat => _run_one_traj seed TwoLevel.mixed [0; 1] in
  (exists d1, _mu_c self1 = Some d1 /\ dict_get d1 0 = Some 1 /\
              forall t, In t [0; 1] -> In t (dict_keys d1)) /\
  run TwoLevel.mixed [0; 1] [1%nat; 2%nat] self
    = super_run run_one [1%nat; 2%nat] self1 /\
  Forall (cache_extends self1)
         (run_entry_states TwoLevel.mixed [0; 1] [1%nat; 2%nat] self) /\
  (forall seed st tl
          (s s' : NonMarkovianMCSolver TwoLevel.diag2 TwoLevel.frozen) r,
     _run_one_traj (Seed := nat) seed st tl s = (r, s') -> keeps_cache s s').
Proof.
  intros self self1 run_one.
  destruct (cache_shared_by_trajectories TwoLevel.mixed [1%nat; 2%nat]
              self 0 [1] self1 precompute_A)
    as (_ & Hcached & Hrun & _ & Hentry & _ & _ & _ & _ & Hkeeps).
  split; [exact Hcached |]; split; [exact Hrun |]; split; [exact Hentry |].
  intros seed st tl s s' r; apply Hkeeps.
Defined.

(** Scenario B started at 0, stepped to 1 after one jump of the second
    operator at [t = 0.5]. *)
Lemma step_returns_weighted_state_witness :
  let self := TwoLevel.scenarioB (Some [(0, 1)]) (TwoLevel.jumped 0) in
  exists mu_c self',
    _continuous_martingale 1 (set_integrator self (TwoLevel.jumped 1))
      = (Ok mu_c, self') /\
    let mu := mu_c * discrete_value self [(1 / 2, 1%nat)] in
    _current_martingale (set_integrator self (TwoLevel.jumped 1))
      = (Ok mu, self') /\
    step 1 self = (Ok (qscale (RtoC mu) (_2dm TwoLevel.mixed)), self') /\
    (isket TwoLevel.mixed = true ->
       _2dm TwoLevel.mixed = ket2dm TwoLevel.mixed) /\
    (isket TwoLevel.mixed = false -> _2dm TwoLevel.mixed = TwoLevel.mixed) /\
    tr (qscale (RtoC mu) (_2dm TwoLevel.mixed)) = RtoC mu.
Proof.
  intros self.
  assert (Hkey : exists k, In k (dict_keys [(0, 1)]) /\
                           k <= integ_time (TwoLevel.jumped 1)).
  { exists 0; split; [now left | simpl; lra]. }
  exact (step_returns_weighted_state (EN := TwoLevel.frozen_engine)
           self 1 TwoLevel.mixed (TwoLevel.jumped 1) [(0, 1)]
           eq_refl eq_refl Hkey
           (fun t0 => ex_intro _ _ (quad_B _ _ t0 _))
           (jump_B_ok _ _) trace_linear trace_mixed).
Defined.

(** * Further properties of the solver *)

(** ** Shifted rates and paired coefficients *)

Section ShiftedRates.

Context {Qobj Integ : Type}.
Implicit Types self : NonMarkovianMCSolver Qobj Integ.

Lemma sigma_formula self t :
  ops_and_rates self <> [] ->
  exists m, In m (rates_at self t) /\
            (forall f, In f (ops_and_rates self) -> m <= snd f t) /\
            sigma self t = 2 * Rmax 0 (- m).
Proof.
  intros Hne.
  destruct (rate_shift_ok self t Hne) as (m & _ & Hin & Hlow & E).
  exists m; repeat split; auto.
  unfold sigma; rewrite E; reflexivity.
Qed.

Lemma shifted_rate_abs self t f :
  In f (ops_and_rates self) -> Rabs (snd f t) <= snd f t + sigma self t.
Proof.
  intros Hf.
  assert (Hne : ops_and_rates self <> []).
  { intros E; rewrite E in Hf; exact Hf. }
  destruct (sigma_formula self t Hne) as (m & _ & Hlow & ->).
  specialize (Hlow f Hf).
  unfold Rabs, Rmax.
  destruct (Rcase_abs (snd f t)), (Rle_dec 0 (- m)); lra.
Qed.

(** X1. The shifted rate of every pair dominates the absolute value of its
    rate: [|Gamma_i(t)| <= Gamma_i(t) + sigma(t)]; and the shift is zero
    exactly when no rate of the sequence is negative at [t]. *)
Theorem shifted_rate_dominates self t (Hne : ops_and_rates self <> []) :
  (forall f, In f (ops_and_rates self) ->
     Rabs (snd f t) <= snd f t + sigma self t) /\
  (sigma self t = 0 <-> forall f, In f (ops_and_rates self) -> 0 <= snd f t).
Proof.
  split; [intros f; apply shifted_rate_abs |].
  destruct (sigma_formula self t Hne) as (m & Hin & Hlow & E).
  rewrite E; split.
  - intros Hz f Hf; specialize (Hlow f Hf).
    unfold Rmax in Hz; destruct (Rle_dec 0 (- m)); lra.
  - intros Hpos.
    unfold rates_at in Hin; apply in_map_iff in Hin.
    destruct Hin as (f & <- & Hf); specialize (Hpos f Hf).
    unfold Rmax; destruct (Rle_dec 0 (- snd f t)); lra.
Qed.

(** X2. The paired operators are aligned with the operator-rate sequence:
    same length, same operator at every index, and the coefficient at index
    [i] is a non-negative real whose square is the shifted rate
    [Gamma_i(t) + sigma(t)]. *)
Theorem paired_coefficient_square self t :
  List.length (_compute_paired_c_ops self)
    = List.length (ops_and_rates self) /\
  forall i f, nth_error (ops_and_rates self) i = Some f ->
    exists c x,
      nth_error (_compute_paired_c_ops self) i = Some c /\
      fst c = fst f /\
      snd c t = Ok (Fin x) /\
      0 <= x /\ x * x = snd f t + sigma self t.
Proof.
  split; [unfold _compute_paired_c_ops; apply length_map |].
  intros i f Hf.
  destruct (sqrt_gamma_in_sequence self t f (nth_error_In _ _ Hf))
    as [Hpos Hval].
  eexists; exists (sqrt (snd f t + sigma self t)).
  split; [| split; [| split; [| split]]].
  - unfold _compute_paired_c_ops; rewrite nth_error_map, Hf; reflexivity.
  - reflexivity.
  - exact Hval.
  - apply sqrt_pos.
  - apply sqrt_sqrt; exact Hpos.
Qed.

End ShiftedRates.

(** ** The discrete martingale as a product *)

Section DiscreteProduct.

Context {Qobj Integ : Type}.
Implicit Types self : NonMarkovianMCSolver Qobj Integ.
Implicit Types c : R * nat.

Lemma in_range_rate self c :
  in_range self c ->
  exists f, In f (ops_and_rates self) /\
            Gamma self (snd c) (fst c) = snd f (fst c).
Proof.
  unfold in_range, Gamma; intros Hlt.
  destruct (nth_error (ops_and_rates self) (snd c)) as [f|] eqn:Hf.
  - exists f; split; [now apply nth_error_In in Hf | reflexivity].
  - apply nth_error_None in Hf; lia.
Qed.

Lemma factor_bounded self c :
  in_range self c -> denominator self c <> 0 ->
  Rabs (Gamma self (snd c) (fst c) / denominator self c) <= 1.
Proof.
  intros Hr Hd.
  destruct (in_range_rate self c Hr) as (f & Hf & E).
  pose proof (shifted_rate_abs self (fst c) f Hf) as Habs.
  unfold denominator in *; rewrite E in *.
  set (g := snd f (fst c)) in *; set (s := sigma self (fst c)) in *.
  pose proof (Rabs_pos g) as Hg.
  assert (Hpos : 0 < g + s) by lra.
  unfold Rdiv; rewrite Rabs_mult, (Rabs_right (/ (g + s))).
  - rewrite <- (Rinv_r (g + s)) by lra.
    apply Rmult_le_compat_r; [left; now apply Rinv_0_lt_compat | exact Habs].
  - left; now apply Rinv_0_lt_compat.
Qed.

Lemma discrete_value_bounded self collapses :
  well_formed self collapses -> Rabs (discrete_value self collapses) <= 1.
Proof.
  induction collapses as [|c cs IH]; intros Hwf; simpl.
  - rewrite Rabs_R1; lra.
  - destruct (Hwf c (or_introl eq_refl)) as [Hr Hd].
    assert (Hcs : Rabs (discrete_value self cs) <= 1).
    { apply IH; intros c' Hc'; apply Hwf; now right. }
    pose proof (factor_bounded self c Hr Hd) as Hc.
    rewrite Rabs_mult.
    pose proof (Rabs_pos (Gamma self (snd c) (fst c) / denominator self c)).
    pose proof (Rabs_pos (discrete_value self cs)).
    nra.
Qed.

Lemma discrete_value_app self cs1 cs2 :
  discrete_value self (cs1 ++ cs2)
    = discrete_value self cs1 * discrete_value self cs2.
Proof.
  induction cs1 as [|c cs1 IH]; simpl; [lra |].
  fold (discrete_value self (cs1 ++ cs2)); rewrite IH.
  fold (discrete_value self cs1); ring.
Qed.

Lemma discrete_value_perm self cs cs' :
  Permutation cs cs' -> discrete_value self cs = discrete_value self cs'.
Proof.
  induction 1 as [| c cs cs' _ IH | c1 c2 cs | cs1 cs2 cs3 _ IH1 _ IH2].
  - reflexivity.
  - simpl; fold (discrete_value self cs) (discrete_value self cs').
    rewrite IH; reflexivity.
  - simpl; fold (discrete_value self cs); ring.
  - congruence.
Qed.

(** X3. Every factor of the discrete martingale lies between -1 and 1, so
    for a well-formed collapse list the discrete martingale has a value of
    absolute value at most 1. *)
Theorem discrete_martingale_bounded self collapses
    (Hwf : well_formed self collapses) :
  (forall c, In c collapses ->
     Rabs (Gamma self (snd c) (fst c) / denominator self c) <= 1) /\
  exists v, _discrete_martingale self collapses = Ok v /\ Rabs v <= 1.
Proof.
  split.
  - intros c Hc; destruct (Hwf c Hc); now apply factor_bounded.
  - exists (discrete_value self collapses); split.
    + now apply discrete_martingale_ok.
    + now apply discrete_value_bounded.
Qed.

(** X4. The discrete martingale does not depend on the order of the
    recorded events: for two collapse lists that are permutations of each
    other, with the indices in range, the outcome is the same, value or
    [ZeroDivisionError]. *)
Theorem discrete_martingale_reorder self cs cs'
    (Hperm : Permutation cs cs')
    (Hrange : forall c, In c cs -> in_range self c) :
  _discrete_martingale self cs' = _discrete_martingale self cs.
Proof.
  assert (Hrange' : forall c, In c cs' -> in_range self c).
  { intros c Hc; apply Hrange.
    apply Permutation_in with cs'; [now apply Permutation_sym | exact Hc]. }
  destruct (discrete_factors_cases self cs Hrange)
    as [[_ Hall] | [Hraise (c0 & Hin0 & E0)]].
  - rewrite (discrete_martingale_ok self cs).
    + rewrite (discrete_martingale_ok self cs').
      * f_equal; symmetry; now apply discrete_value_perm.
      * intros c Hc; split; [auto |].
        apply Hall, Permutation_in with cs';
          [now apply Permutation_sym | exact Hc].
    + intros c Hc; split; auto.
  - destruct (discrete_factors_cases self cs' Hrange')
      as [[_ Hall'] | [Hraise' _]].
    + exfalso; apply (Hall' c0); [| exact E0].
      now apply Permutation_in with cs.
    + unfold _discrete_martingale; rewrite Hraise, Hraise'; reflexivity.
Qed.

(** X5. The discrete martingale is multiplicative over concatenation: for
    a well-formed list [cs1 ++ cs2] it is the product of the discrete
    martingales of [cs1] and [cs2]; in particular one more recorded event
    multiplies the value by the factor of that event. *)
Theorem discrete_martingale_app self cs1 cs2
    (Hwf : well_formed self (cs1 ++ cs2)) :
  exists v1 v2,
    _discrete_martingale self cs1 = Ok v1 /\
    _discrete_martingale self cs2 = Ok v2 /\
    _discrete_martingale self (cs1 ++ cs2) = Ok (v1 * v2).
Proof.
  exists (discrete_value self cs1), (discrete_value self cs2).
  split; [| split].
  - apply discrete_martingale_ok.
    intros c Hc; apply Hwf, in_or_app; now left.
  - apply discrete_martingale_ok.
    intros c Hc; apply Hwf, in_or_app; now right.
  - rewrite (discrete_martingale_ok self _ Hwf), discrete_value_app.
    reflexivity.
Qed.

(** X6. Where no rate is negative nothing is reweighted: if at the time of
    every recorded event all rates of the sequence are non-negative and the
    rate of the jumping operator is positive, every factor is 1 and the
    discrete martingale is 1. *)
Theorem discrete_martingale_markovian self collapses
    (Hrange : forall c, In c collapses -> in_range self c)
    (Hpos : forall c, In c collapses ->
              0 < Gamma self (snd c) (fst c) /\
              forall f, In f (ops_and_rates self) -> 0 <= snd f (fst c)) :
  (forall c, In c collapses -> discrete_factor self c = Ok 1) /\
  _discrete_martingale self collapses = Ok 1.
Proof.
  assert (Hsig : forall c, In c collapses -> sigma self (fst c) = 0).
  { intros c Hc; destruct (Hpos c Hc) as [_ Hall].
    destruct (in_range_rate self c (Hrange c Hc)) as (f & Hf & _).
    assert (Hne : ops_and_rates self <> []).
    { intros E; rewrite E in Hf; exact Hf. }
    destruct (sigma_formula self (fst c) Hne) as (m & Hin & _ & ->).
    unfold rates_at in Hin; apply in_map_iff in Hin.
    destruct Hin as (f' & <- & Hf'); specialize (Hall f' Hf').
    unfold Rmax; destruct (Rle_dec 0 (- snd f' (fst c))); lra. }
  assert (Hone : forall c, In c collapses ->
            denominator self c <> 0 /\
            Gamma self (snd c) (fst c) / denominator self c = 1).
  { intros c Hc; destruct (Hpos c Hc) as [Hg _].
    unfold denominator; rewrite (Hsig c Hc).
    split; [lra | field; lra]. }
  split.
  - intros c Hc; rewrite (discrete_factor_div self c (Hrange c Hc)).
    destruct (Hone c Hc) as [Hd E].
    rewrite py_div_ok by exact Hd; rewrite E; reflexivity.
  - rewrite discrete_martingale_ok.
    + f_equal.
      clear Hrange Hpos Hsig.
      induction collapses as [|c cs IH]; simpl; [reflexivity |].
      destruct (Hone c (or_introl eq_refl)) as [_ ->].
      fold (discrete_value self cs); rewrite IH; [lra |].
      intros c' Hc'; apply Hone; now right.
    + intros c Hc; split; [auto | apply (Hone c Hc)].
Qed.

End DiscreteProduct.

(** ** The continuous martingale along a trajectory *)

Lemma dict_set_keys (d : dict) (t v k : R) :
  In k (dict_keys (dict_set d t v)) -> k = t \/ In k (dict_keys d).
Proof.
  induction d as [|[k' w] d IH]; simpl.
  - intros [<- | []]; now left.
  - destruct (Req_dec_T t k') as [-> | Hne]; simpl.
    + intros [<- | Hin]; right; [now left | now right].
    + intros [<- | Hin]; [right; now left |].
      destruct (IH Hin); [now left | right; now right].
Qed.

Lemma dict_get_set_inv (d : dict) (t v k w : R) :
  dict_get (dict_set d t v) k = Some w ->
  (k = t /\ w = v) \/ (k <> t /\ dict_get d k = Some w).
Proof.
  intros Hget; destruct (Req_dec_T k t) as [-> | Hne].
  - rewrite dict_get_set_same in Hget; left; split; congruence.
  - rewrite dict_get_set_other in Hget by exact Hne; right; auto.
Qed.

Section ContinuousAlong.

Context {Qobj Integ : Type} {QD : Quadrature}.
Implicit Types self : NonMarkovianMCSolver Qobj Integ.

(** The possible outcomes of a query. *)
Lemma continuous_cases self t r self' :
  _continuous_martingale t self = (r, self') ->
  (self' = self /\
   (forall v, r = Ok v ->
      exists d, _mu_c self = Some d /\ dict_get d t = Some v)) \/
  (exists d t0 v0 I,
     _mu_c self = Some d /\ dict_get d t = None /\
     dict_get d t0 = Some v0 /\ t0 < t /\
     r = Ok (v0 * exp (_a_parameter self * I)) /\
     self' = set_mu_c self (dict_set d t (v0 * exp (_a_parameter self * I)))).
Proof.
  unfold _continuous_martingale.
  destruct (_mu_c self) as [d|] eqn:Hd.
  2: { intros [= <- <-]; left; split; [reflexivity | discriminate]. }
  destruct (dict_get d t) as [v|] eqn:Hv.
  { intros [= <- <-]; left; split; [reflexivity |].
    intros v' [= <-]; exists d; auto. }
  fold (earlier t d).
  destruct (py_max (earlier t d)) as [t0|e] eqn:Hmax.
  2: { intros [= <- <-]; left; split; [reflexivity | discriminate]. }
  destruct (quad _ t0 t) as [I|e].
  2: { intros [= <- <-]; left; split; [reflexivity | discriminate]. }
  destruct (dict_get d t0) as [v0|] eqn:Hv0.
  2: { intros [= <- <-]; left; split; [reflexivity | discriminate]. }
  intros [= <- <-]; right; exists d, t0, v0, I.
  assert (Hin : In t0 (earlier t d)).
  { assert (Hne : earlier t d <> []) by (intros E; rewrite E in Hmax; discriminate).
    destruct (py_max_ok _ Hne) as (m & Hm & Hin & _); congruence. }
  apply earlier_In in Hin; destruct Hin as [_ Hlt].
  repeat split; auto.
Qed.

(** X7. A successful query is remembered: asking again at the same time
    returns the same value and changes nothing; and a query that raises
    leaves the solver as it was. *)
Theorem continuous_martingale_requery self t r self'
    (Hquery : _continuous_martingale t self = (r, self')) :
  (forall v, r = Ok v -> _continuous_martingale t self' = (Ok v, self')) /\
  (forall e, r = Raise e -> self' = self).
Proof.
  destruct (continuous_cases self t r self' Hquery)
    as [[-> Hhit] | (d & t0 & v0 & I & Hd & Hmiss & Hv0 & Hlt & -> & ->)].
  - split; [| reflexivity].
    intros v Hv; destruct (Hhit v Hv) as (d & Hd & Hget).
    now apply continuous_hit with d.
  - split; [| discriminate].
    intros v [= <-].
    apply continuous_hit with (dict_set d t (v0 * exp (_a_parameter self * I))).
    + reflexivity.
    + apply dict_get_set_same.
Qed.

(** X8. Going through an intermediate time gives the same value: with
    [t0] the last cached time before [t2], [t0 < t1 < t2] and a quadrature
    that is additive over [t0, t1, t2], the query at [t2] returns the same
    value whether or not [t1] was queried first. *)
Theorem continuous_martingale_incremental self d (t0 t1 t2 v0 I1 I2 : R)
    (Hinit : _mu_c self = Some d)
    (Hv0 : dict_get d t0 = Some v0)
    (H01 : t0 < t1) (H12 : t1 < t2)
    (Hgap : forall k, In k (dict_keys d) -> k <= t0 \/ t2 < k)
    (Hq1 : quad (_rate_shift self) t0 t1 = Ok I1)
    (Hq2 : quad (_rate_shift self) t1 t2 = Ok I2)
    (Hq : quad (_rate_shift self) t0 t2 = Ok (I1 + I2)) :
  exists v s v1 s1 s2,
    _continuous_martingale t2 self = (Ok v, s) /\
    _continuous_martingale t1 self = (Ok v1, s1) /\
    _continuous_martingale t2 s1 = (Ok v, s2) /\
    v = v0 * exp (_a_parameter self * (I1 + I2)).
Proof.
  assert (Hnokey : forall t, t0 < t -> t <= t2 -> dict_get d t = None).
  { intros t Hlo Hhi; destruct (dict_get d t) as [w|] eqn:Hw; [| reflexivity].
    apply dict_get_key in Hw; destruct (Hgap t Hw); lra. }
  assert (Hbelow : forall t, t <= t2 ->
            forall k, In k (dict_keys d) -> k < t -> k <= t0).
  { intros t Hhi k Hk Hlt; destruct (Hgap k Hk); lra. }
  set (v1 := v0 * exp (_a_parameter self * I1)).
  set (s1 := set_mu_c self (dict_set d t1 v1)).
  assert (Hdirect := continuous_miss self d t2 t0 v0 (I1 + I2) Hinit
                       (Hnokey t2 ltac:(lra) ltac:(lra)) Hv0 ltac:(lra)
                       (Hbelow t2 ltac:(lra)) Hq).
  assert (Hfirst := continuous_miss self d t1 t0 v0 I1 Hinit
                      (Hnokey t1 ltac:(lra) ltac:(lra)) Hv0 H01
                      (Hbelow t1 ltac:(lra)) Hq1).
  fold v1 in Hfirst; fold s1 in Hfirst.
  assert (Hsecond :
            _continuous_martingale t2 s1 =
              (Ok (v1 * exp (_a_parameter s1 * I2)),
               set_mu_c s1 (dict_set (dict_set d t1 v1) t2
                              (v1 * exp (_a_parameter s1 * I2))))).
  { apply continuous_miss with (t0 := t1).
    - reflexivity.
    - rewrite dict_get_set_other by lra.
      apply Hnokey; lra.
    - apply dict_get_set_same.
    - exact H12.
    - intros k Hk Hlt; apply dict_set_keys in Hk.
      destruct Hk as [-> | Hk]; [lra |].
      destruct (Hgap k Hk); lra.
    - exact Hq2. }
  eexists; eexists; exists v1, s1; eexists.
  split; [exact Hdirect |]; split; [exact Hfirst |]; split; [| reflexivity].
  rewrite Hsecond; f_equal; f_equal.
  unfold v1, s1; simpl.
  rewrite Rmult_plus_distr_l, exp_plus; ring.
Qed.

Lemma cache_positive_set self d t v :
  cache_positive self -> _mu_c self = Some d -> 0 < v ->
  cache_positive (set_mu_c self (dict_set d t v)).
Proof.
  intros Hpos Hd Hv d' [= <-] k w Hget.
  destruct (dict_get_set_inv _ _ _ _ _ Hget) as [[_ ->] | [_ Hold]];
    [exact Hv | exact (Hpos d Hd k w Hold)].
Qed.

End ContinuousAlong.

(** X9. The continuous martingale is positive: the cache that [start]
    creates holds only positive values, a query keeps it so, and every
    value a query returns from such a cache is positive. *)
Theorem continuous_martingale_positive (Qobj Integ Seed Gen : Type)
    (QD : Quadrature) (EN : Engine Qobj Integ Seed Gen)
    (self : NonMarkovianMCSolver Qobj Integ) :
  (forall (state : Qobj) t0 seed,
     cache_positive (snd (start state t0 seed self))) /\
  (cache_positive self ->
   forall t r self', _continuous_martingale t self = (r, self') ->
     cache_positive self' /\ forall v, r = Ok v -> 0 < v).
Proof.
  split.
  - intros state t0 seed d; simpl; intros [= <-] k v; simpl.
    destruct (Req_dec_T k t0); [intros [= <-]; lra | discriminate].
  - intros Hpos t r self' Hquery.
    destruct (continuous_cases self t r self' Hquery)
      as [[-> Hhit] | (d & t0 & v0 & I & Hd & Hmiss & Hv0 & Hlt & -> & ->)].
    + split; [exact Hpos |].
      intros v Hv; destruct (Hhit v Hv) as (d & Hd & Hget).
      exact (Hpos d Hd t v Hget).
    + assert (Hv : 0 < v0 * exp (_a_parameter self * I)).
      { apply Rmult_lt_0_compat; [exact (Hpos d Hd t0 v0 Hv0) | apply exp_pos]. }
      split; [now apply cache_positive_set |].
      intros v [= <-]; exact Hv.
Qed.

(** ** Runs *)

Section RunFacts.

Context {Qobj Integ Seed Gen : Type}.
Context {QL : QobjLib Qobj} {QD : Quadrature}
        {EN : Engine Qobj Integ Seed Gen}.
Implicit Types self : NonMarkovianMCSolver Qobj Integ.

Lemma rate_shift_ext self self' :
  ops_and_rates self' = ops_and_rates self ->
  _rate_shift self' = _rate_shift self.
Proof. intros E; unfold _rate_shift; rewrite E; reflexivity. Qed.

(** One query at a time not before the start of the cache. *)
Lemma continuous_forward self0 self t0 t :
  (forall a b, exists I, quad (_rate_shift self0) a b = Ok I) ->
  ops_and_rates self = ops_and_rates self0 ->
  cache_from t0 self -> t0 <= t ->
  exists v self',
    _continuous_martingale t self = (Ok v, self') /\
    ops_and_rates self' = ops_and_rates self0 /\
    cache_from t0 self' /\ cached_times [t] self' /\
    cache_extends self self'.
Proof.
  intros Hquad Hops (d & Hd & Hin & Hlow) Hle.
  destruct (continuous_total self d t Hd) as (v & self' & Hquery).
  { exists t0; auto. }
  { intros a; rewrite (rate_shift_ext self0 self Hops); apply Hquad. }
  exists v, self'; split; [exact Hquery |].
  destruct (continuous_frame _ _ _ _ Hquery) as [(Hops' & _ & Hext) _].
  split; [congruence |].
  destruct (continuous_cases self t _ self' Hquery)
    as [[-> Hhit] | (d' & t1 & v1 & I & Hd' & Hmiss & Hv1 & Hlt & _ & ->)].
  - destruct (Hhit v eq_refl) as (d' & Hd' & Hget).
    assert (d' = d) by congruence; subst d'.
    repeat split; auto.
    + exists d; auto.
    + exists d; split; [exact Hd |].
      intros k [<- | []]; now apply dict_get_key with v.
  - assert (d' = d) by congruence; subst d'.
    repeat split; auto.
    + eexists; split; [reflexivity |]; split.
      * destruct (dict_key_get d t0 Hin) as (w & Hw).
        apply dict_get_key with w.
        rewrite dict_get_set_other; [exact Hw |].
        intros ->; congruence.
      * intros k Hk; apply dict_set_keys in Hk.
        destruct Hk as [-> | Hk]; auto.
    + eexists; split; [reflexivity |].
      intros k [<- | []].
      eapply dict_get_key; apply dict_get_set_same.
Qed.

Lemma cached_times_extends ts self self' :
  cached_times ts self -> cache_extends self self' -> cached_times ts self'.
Proof.
  intros (d & Hd & Hall) Hext.
  destruct (Hext d Hd) as (d' & Hd' & Hsub).
  exists d'; split; [exact Hd' |].
  intros t Ht; destruct (dict_key_get d t (Hall t Ht)) as (w & Hw).
  apply dict_get_key with w; auto.
Qed.

Lemma precompute_forward self0 t0 ts : forall self,
  (forall a b, exists I, quad (_rate_shift self0) a b = Ok I) ->
  ops_and_rates self = ops_and_rates self0 ->
  cache_from t0 self ->
  Forall (fun t => t0 <= t) ts ->
  exists self',
    precompute ts self = (Ok tt, self') /\
    ops_and_rates self' = ops_and_rates self0 /\
    cache_from t0 self' /\ cached_times ts self' /\
    cache_extends self self'.
Proof.
  induction ts as [|t ts IH]; intros self Hquad Hops Hfrom Hall.
  - exists self; repeat split; auto.
    + destruct Hfrom as (d & Hd & _); exists d; split; [exact Hd | intros t []].
    + apply cache_extends_refl.
  - inversion Hall as [|? ? Ht Hts]; subst.
    destruct (continuous_forward self0 self t0 t Hquad Hops Hfrom Ht)
      as (v & self1 & Hquery & Hops1 & Hfrom1 & Hc1 & Hext1).
    destruct (IH self1 Hquad Hops1 Hfrom1 Hts)
      as (self' & Hrest & Hops' & Hfrom' & Hc' & Hext').
    exists self'; simpl; unfold bind; rewrite Hquery, Hrest.
    repeat split; auto.
    + destruct Hc' as (d' & Hd' & Hall').
      exists d'; split; [exact Hd' |].
      intros k [<- | Hk]; [| auto].
      destruct (cached_times_extends [t] self1 self' Hc1 Hext')
        as (d'' & Hd'' & Hk'').
      assert (d'' = d') by congruence; subst d''.
      apply Hk''; now left.
    + eapply cache_extends_trans; eauto.
Qed.

Lemma precompute_backward self0 t0 ts : forall self,
  (forall a b, exists I, quad (_rate_shift self0) a b = Ok I) ->
  ops_and_rates self = ops_and_rates self0 ->
  cache_from t0 self ->
  Exists (fun t => t < t0) ts ->
  exists self',
    precompute ts self = (Raise (ValueError backwards_msg), self').
Proof.
  induction ts as [|t ts IH]; intros self Hquad Hops Hfrom Hex.
  - inversion Hex.
  - destruct (Rlt_dec t t0) as [Hlt | Hge].
    + destruct Hfrom as (d & Hd & _ & Hlow).
      exists self; simpl; unfold bind.
      rewrite (continuous_backwards self d t Hd); [reflexivity |].
      intros k Hk; specialize (Hlow k Hk); lra.
    + assert (Hts : Exists (fun t => t < t0) ts).
      { inversion Hex as [? ? Hhd | ? ? Htl]; subst;
          [exfalso; exact (Hge Hhd) | exact Htl]. }
      destruct (continuous_forward self0 self t0 t Hquad Hops Hfrom)
        as (v & self1 & Hquery & Hops1 & Hfrom1 & _); [lra |].
      destruct (IH self1 Hquad Hops1 Hfrom1 Hts) as (self' & Hrest).
      exists self'; simpl; unfold bind; rewrite Hquery, Hrest; reflexivity.
Qed.

Lemma fresh_from self t0 : cache_from t0 (set_mu_c self [(t0, 1)]).
Proof.
  eexists; split; [reflexivity |]; split; [now left |].
  simpl; intros k [<- | []]; lra.
Qed.

(** X10. The precomputation of [run], the quadrature succeeding: if no
    time of [tlist] is earlier than [tlist[0]] it succeeds and every time
    of [tlist] is cached afterwards, in whatever order the times come; if
    some time is earlier than [tlist[0]], [run] raises the [ValueError] of
    backward integration before any trajectory is started. *)
Theorem run_precomputes self (state : Qobj) (seeds : list Seed)
    (t0 : R) (rest : list R)
    (Hquad : forall a b, exists I, quad (_rate_shift self) a b = Ok I) :
  (Forall (fun t => t0 <= t) rest ->
     exists self1,
       precompute rest (set_mu_c self [(t0, 1)]) = (Ok tt, self1) /\
       cached_times (t0 :: rest) self1 /\
       ops_and_rates self1 = ops_and_rates self) /\
  (Exists (fun t => t < t0) rest ->
     exists self1,
       run state (t0 :: rest) seeds self
         = (Raise (ValueError backwards_msg), self1)).
Proof.
  split.
  - intros Hall.
    destruct (precompute_forward self t0 rest (set_mu_c self [(t0, 1)])
                Hquad eq_refl (fresh_from self t0) Hall)
      as (self1 & Hpre & Hops & (d & Hd & Hin & _) & (d' & Hd' & Hall') & _).
    exists self1; repeat split; auto.
    assert (d' = d) by congruence; subst d'.
    exists d; split; [exact Hd |].
    intros t [<- | Ht]; auto.
  - intros Hex.
    destruct (precompute_backward self t0 rest (set_mu_c self [(t0, 1)])
                Hquad eq_refl (fresh_from self t0) Hex) as (self1 & Hpre).
    exists self1; unfold run, bind; rewrite Hpre; reflexivity.
Qed.

End RunFacts.

(** ** Trajectories on a prepared cache *)

Section TrajectoryFacts.

Context {Qobj Integ Seed Gen : Type}.
Context {QL : QobjLib Qobj} {QD : Quadrature}
        {EN : Engine Qobj Integ Seed Gen}.
Implicit Types self : NonMarkovianMCSolver Qobj Integ.

Lemma well_formed_ext self self' collapses :
  ops_and_rates self' = ops_and_rates self ->
  well_formed self collapses -> well_formed self' collapses.
Proof.
  intros E Hwf c Hc; destruct (Hwf c Hc) as [Hr Hd].
  unfold in_range, denominator, Gamma, sigma in *.
  rewrite (rate_shift_ext self self' E), E; auto.
Qed.

(** At a cached time the current martingale is read off the cache and the
    solver is left as it is. *)
Lemma current_cached self d v :
  _mu_c self = Some d ->
  dict_get d (integ_time (_integrator self)) = Some v ->
  (exists r, _current_martingale self = (r, self)) /\
  (well_formed self (integ_collapses (_integrator self)) ->
   _current_martingale self =
     (Ok (v * discrete_value self (integ_collapses (_integrator self))),
      self)).
Proof.
  intros Hd Hv.
  pose proof (continuous_hit self d _ v Hd Hv) as Hhit.
  split.
  - unfold _current_martingale, bind; rewrite Hhit.
    destruct (_discrete_martingale self _); eauto.
  - intros Hwf; now apply current_value.
Qed.

Section Reporting.

(** The integrator reports the time it was asked to reach. *)
Hypothesis Htime : forall t (i : Integ),
  integ_time (snd (integ_integrate t i)) = t.

Lemma traj_loop_cached ts : forall (result : TrajResult Qobj) self r self',
  cached_times ts self ->
  traj_loop ts result self = (r, self') ->
  _mu_c self' = _mu_c self /\ ops_and_rates self' = ops_and_rates self /\
  _a_parameter self' = _a_parameter self.
Proof.
  induction ts as [|t ts IH]; intros result self r self' Hc; simpl.
  - intros [= _ <-]; auto.
  - pose proof (Htime t (_integrator self)) as Ht.
    destruct (integ_integrate t (_integrator self)) as [[t' state] i].
    simpl in Ht.
    destruct Hc as (d & Hd & Hall).
    destruct (dict_key_get d t (Hall t (or_introl eq_refl))) as (v & Hv).
    destruct (current_cached (set_integrator self i) d v Hd) as [(r0 & Hcur) _].
    { simpl; rewrite Ht; exact Hv. }
    unfold bind; rewrite Hcur.
    destruct r0 as [mu|e]; [| intros [= _ <-]; auto].
    intros Hloop; apply IH in Hloop; [exact Hloop |].
    exists d; split; [exact Hd | intros k Hk; apply Hall; now right].
Qed.

Lemma traj_loop_total self0 (good : Integ -> Prop) ts :
  forall (result : TrajResult Qobj) self,
  (forall t i, good i -> good (snd (integ_integrate t i))) ->
  (forall i, good i -> well_formed self0 (integ_collapses i)) ->
  ops_and_rates self = ops_and_rates self0 ->
  good (_integrator self) ->
  cached_times ts self ->
  exists result' self',
    traj_loop ts result self = (Ok result', self').
Proof.
  induction ts as [|t ts IH]; intros result self Hstep Hwf Hops Hgood Hc;
    simpl.
  - unfold ret; eauto.
  - pose proof (Htime t (_integrator self)) as Ht.
    pose proof (Hstep t (_integrator self) Hgood) as Hgood'.
    destruct (integ_integrate t (_integrator self)) as [[t' state] i].
    simpl in Ht, Hgood'.
    destruct Hc as (d & Hd & Hall).
    destruct (dict_key_get d t (Hall t (or_introl eq_refl))) as (v & Hv).
    destruct (current_cached (set_integrator self i) d v Hd) as [_ Hcur].
    { simpl; rewrite Ht; exact Hv. }
    unfold bind; rewrite Hcur.
    + apply IH; auto.
      exists d; split; [exact Hd | intros k Hk; apply Hall; now right].
    + apply (well_formed_ext self0); [exact Hops | now apply Hwf].
Qed.

Lemma run_one_cached self (seed : Seed) (state : Qobj)
    (t0 : R) (rest : list R) r self' :
  cached_times rest self ->
  _run_one_traj seed state (t0 :: rest) self = (r, self') ->
  _mu_c self' = _mu_c self /\
  ops_and_rates self' = ops_and_rates self /\
  _a_parameter self' = _a_parameter self.
Proof.
  intros Hcached Hrun; unfold _run_one_traj, bind in Hrun.
  destruct (traj_loop rest _ _) as [[result|e] self1] eqn:Hloop;
    apply traj_loop_cached in Hloop; try exact Hcached;
    injection Hrun as _ <-; exact Hloop.
Qed.

(** X11. On a cache that holds the times to visit, a trajectory only reads
    it: with an integrator that reports the time it was asked to reach,
    [_run_one_traj] leaves the cache, the operator-rate sequence and the
    scale factor exactly as it found them, whatever its outcome. *)
Theorem trajectory_reads_cache self (seed : Seed) (state : Qobj)
    (t0 : R) (rest : list R) r self'
    (Hcached : cached_times rest self)
    (Hrun : _run_one_traj seed state (t0 :: rest) self = (r, self')) :
  _mu_c self' = _mu_c self /\
  ops_and_rates self' = ops_and_rates self /\
  _a_parameter self' = _a_parameter self.
Proof. exact (run_one_cached self seed state t0 rest r self' Hcached Hrun). Qed.

Lemma run_one_total self0 (good : Integ -> Prop) (seed : Seed)
    (state : Qobj) t0 rest self :
  (forall t st g i, good (integ_set_state t st g i)) ->
  (forall t i, good i -> good (snd (integ_integrate t i))) ->
  (forall i, good i -> well_formed self0 (integ_collapses i)) ->
  ops_and_rates self = ops_and_rates self0 ->
  cached_times rest self ->
  exists r self',
    _run_one_traj seed state (t0 :: rest) self = (Ok (seed, r), self').
Proof.
  intros Hset Hstep Hwf Hops Hc; unfold _run_one_traj, bind.
  match goal with
  | |- context [traj_loop rest ?res ?s] =>
      destruct (traj_loop_total self0 good rest res s Hstep Hwf Hops
                  (Hset _ _ _ _) Hc)
        as (result' & self' & ->)
  end.
  eauto.
Qed.

End Reporting.

Lemma traj_loop_shape ts : forall (result result' : TrajResult Qobj) self self',
  traj_loop ts result self = (Ok result', self') ->
  exists ts' sts mus,
    times result' = times result ++ ts' /\
    states result' = states result ++ sts /\
    trace result' = trace result ++ mus /\
    List.length ts' = List.length ts /\
    List.length sts = List.length ts /\
    Forall2 weighted sts mus /\
    collapse result' = collapse result.
Proof.
  induction ts as [|t ts IH]; intros result result' self self'; simpl.
  - intros [= <- _]; exists [], [], []; rewrite !app_nil_r.
    repeat split; auto.
  - destruct (integ_integrate t (_integrator self)) as [[t' state] i].
    unfold bind.
    destruct (_current_martingale (set_integrator self i))
      as [[mu|e] self1]; [| discriminate].
    intros Hloop; apply IH in Hloop.
    destruct Hloop as (ts' & sts & mus & Ht & Hs & Hm & Hl1 & Hl2 & Hw & Hc).
    simpl in Ht, Hs, Hm, Hc.
    exists (t' :: ts'),
           (qscale (RtoC mu) (_2dm (_restore_state state)) :: sts),
           (mu :: mus).
    rewrite Ht, Hs, Hm, <- !app_assoc; simpl.
    repeat split; auto.
    constructor; [| exact Hw].
    eexists; reflexivity.
Qed.

Lemma run_one_trace self (seed seed' : Seed) (state : Qobj)
    (tlist : list R) (r : TrajResult Qobj) self' :
  _run_one_traj seed state tlist self = (Ok (seed', r), self') ->
  List.length (trace r) = List.length tlist /\ hd_error (trace r) = Some 1.
Proof.
  unfold _run_one_traj; destruct tlist as [|t0 rest]; [discriminate |].
  unfold bind.
  destruct (traj_loop rest _ _) as [[result|e] self1] eqn:Hloop;
    [| discriminate].
  intros [= <- <- <-].
  apply traj_loop_shape in Hloop.
  destruct Hloop as (ts' & sts & mus & _ & _ & Hm & _ & Hl2 & Hw & _).
  simpl in Hm; simpl; rewrite Hm; simpl.
  pose proof (Forall2_length Hw); split; [lia | reflexivity].
Qed.

(** X12. What a trajectory hands over when it returns: the seed it was
    given and a result whose times, states and trace weights have one
    entry per time of [tlist]; the first entry is the initial time, the
    unweighted initial density matrix and the weight 1; every later state
    is its trace weight times an operator; and the collapse record is the
    one the integrator holds at the end. *)
Theorem trajectory_result_shape self (seed seed' : Seed) (state : Qobj)
    (tlist : list R) (r : TrajResult Qobj) self'
    (Hrun : _run_one_traj seed state tlist self = (Ok (seed', r), self')) :
  seed' = seed /\
  List.length (times r) = List.length tlist /\
  List.length (states r) = List.length tlist /\
  List.length (trace r) = List.length tlist /\
  hd_error (times r) = hd_error tlist /\
  hd_error (states r) = Some (_2dm (_restore_state state)) /\
  hd_error (trace r) = Some 1 /\
  Forall2 weighted (tl (states r)) (tl (trace r)) /\
  collapse r = integ_collapses (_integrator self').
Proof.
  unfold _run_one_traj in Hrun; destruct tlist as [|t0 rest];
    [discriminate |].
  unfold bind in Hrun.
  destruct (traj_loop rest _ _) as [[result|e] self1] eqn:Hloop;
    [| discriminate].
  injection Hrun as <- <- <-.
  apply traj_loop_shape in Hloop.
  destruct Hloop as (ts' & sts & mus & Ht & Hs & Hm & Hl1 & Hl2 & Hw & _).
  simpl in Ht, Hs, Hm; simpl.
  rewrite Ht, Hs, Hm; simpl.
  pose proof (Forall2_length Hw) as Hl3.
  repeat split; auto; lia.
Qed.

(** X13. A trajectory does not start the martingale itself.  On a solver
    whose cache was never initialized, [_run_one_traj] over a single time
    returns the initial entry alone, over two or more times it raises the
    [RuntimeError] of the uninitialized state, and so does [step] once the
    base class has propagated the state. *)
Theorem unstarted_solver self (seed : Seed) (state : Qobj) (t0 : R)
    (Hnone : _mu_c self = None) :
  (exists r self',
     _run_one_traj seed state [t0] self = (Ok (seed, r), self') /\
     times r = [t0] /\ trace r = [1] /\
     states r = [_2dm (_restore_state state)]) /\
  (forall t1 rest, exists self',
     _run_one_traj seed state (t0 :: t1 :: rest) self
       = (Raise (RuntimeError start_first_msg), self')) /\
  (forall t st i, super_step t (_integrator self) = (Ok st, i) ->
     step t self
       = (Raise (RuntimeError start_first_msg), set_integrator self i)).
Proof.
  split; [| split].
  - eexists; eexists; split; [reflexivity |]; simpl; auto.
  - intros t1 rest; unfold _run_one_traj, bind; simpl traj_loop.
    destruct (integ_integrate t1 _) as [[t' st] i].
    unfold bind, _current_martingale, bind.
    rewrite continuous_uninitialized by exact Hnone.
    eexists; reflexivity.
  - intros t st i Hstep; unfold step; rewrite Hstep.
    unfold bind, _current_martingale, bind.
    rewrite continuous_uninitialized by exact Hnone.
    reflexivity.
Qed.

End TrajectoryFacts.

(** ** Construction and whole runs *)

Section Construction.

Context {Qobj Integ : Type} {QL : QobjLib Qobj}.
Implicit Types self : NonMarkovianMCSolver Qobj Integ.

Lemma check_nonempty (opts : Options) ops (res : R * option Qobj) :
  _check_completeness opts ops = Ok res -> ops <> [].
Proof. intros Hcheck ->; discriminate. Qed.

(** X14. What the constructor guarantees.  It fails on an empty operator
    list; when it returns, the input pairs are the first pairs of the
    solver's sequence, at their indices, followed by at most one extra pair
    whose rate is [float]; the cache is uninitialized, the scale factor is
    the one of the completeness check, and the rate shift is defined and
    non-negative at every time. *)
Theorem constructor_invariant (i : Integ) ops (opts : Options) :
  __init__ i [] opts = Raise AttributeError /\
  forall self, __init__ i ops opts = Ok self ->
    ops <> [] /\
    (exists extra,
       ops_and_rates self = ops ++ extra /\
       (List.length extra <= 1)%nat /\
       forall f, In f extra -> snd f = py_float) /\
    (forall k f, nth_error ops k = Some f ->
                 nth_error (ops_and_rates self) k = Some f) /\
    _mu_c self = None /\
    (exists L, _check_completeness opts ops = Ok (_a_parameter self, L)) /\
    (forall t, exists s, _rate_shift self t = Ok s /\ 0 <= s).
Proof.
  split; [reflexivity |].
  intros self Hinit; unfold __init__ in Hinit.
  destruct (_check_completeness opts ops) as [[a L]|e] eqn:Hcheck;
    [| discriminate].
  injection Hinit as <-; simpl.
  pose proof (check_nonempty _ _ _ Hcheck) as Hne.
  assert (Hext : exists extra,
             match L with Some L0 => ops ++ [(L0, py_float)] | None => ops end
               = ops ++ extra /\
             (List.length extra <= 1)%nat /\
             forall f, In f extra -> snd f = py_float).
  { destruct L as [L0|].
    - exists [(L0, py_float)]; repeat split; auto.
      intros f [<- | []]; reflexivity.
    - exists []; rewrite app_nil_r; repeat split; auto.
      intros f []. }
  destruct Hext as (extra & Hops & Hlen & Hfloat).
  split; [exact Hne |].
  split; [exists extra; auto |].
  split.
  { intros k f Hk; rewrite Hops, nth_error_app1; [exact Hk |].
    apply nth_error_Some; congruence. }
  split; [reflexivity |].
  split; [exists L; reflexivity |].
  intros t.
  match goal with
  | |- context [_rate_shift ?s t] =>
      assert (Hne' : ops_and_rates s <> [])
  end.
  { simpl; rewrite Hops; destruct ops; [congruence | discriminate]. }
  match goal with
  | |- context [_rate_shift ?s t] =>
      destruct (rate_shift_ok s t Hne') as (m & _ & _ & _ & E)
  end.
  eexists; split; [exact E |].
  unfold Rmax; destruct (Rle_dec 0 (- m)); lra.
Qed.

End Construction.

Section WholeRun.

Context {Qobj Integ Seed Gen : Type}.
Context {QL : QobjLib Qobj} {QD : Quadrature}
        {EN : Engine Qobj Integ Seed Gen}.
Implicit Types self : NonMarkovianMCSolver Qobj Integ.

Lemma super_run_total self0 (good : Integ -> Prop) (state : Qobj) t0 rest
    (seeds : list Seed) :
  (forall t (i : Integ), integ_time (snd (integ_integrate t i)) = t) ->
  (forall t st g i, good (integ_set_state t st g i)) ->
  (forall t i, good i -> good (snd (integ_integrate t i))) ->
  (forall i, good i -> well_formed self0 (integ_collapses i)) ->
  forall self,
    ops_and_rates self = ops_and_rates self0 ->
    cached_times (t0 :: rest) self ->
    exists rs self',
      super_run (fun seed => _run_one_traj seed state (t0 :: rest)) seeds self
        = (Ok rs, self') /\
      map fst rs = seeds /\
      Forall (fun sr => List.length (trace (snd sr)) = S (List.length rest) /\
                        hd_error (trace (snd sr)) = Some 1) rs /\
      _mu_c self' = _mu_c self.
Proof.
  intros Htime Hset Hstep Hwf.
  induction seeds as [|seed seeds IH]; intros self Hops Hc.
  - exists [], self; repeat split; auto.
  - assert (Hrest : cached_times rest self).
    { destruct Hc as (d & Hd & Hall); exists d; split; [exact Hd |].
      intros t Ht; apply Hall; now right. }
    destruct (run_one_total Htime self0 good seed state t0 rest self
                Hset Hstep Hwf Hops Hrest) as (r & self1 & Hone).
    destruct (run_one_cached Htime self seed state t0 rest _ _ Hrest Hone)
      as (Hmu & Hops1 & _).
    destruct (run_one_trace self seed seed state (t0 :: rest) r self1 Hone)
      as (Hlen & Hhd).
    destruct (IH self1) as (rs & self' & Hrun & Hseeds & Hall & Hmu').
    { congruence. }
    { destruct Hc as (d & Hd & Hk); exists d; split; [congruence | exact Hk]. }
    exists ((seed, r) :: rs), self'.
    cbn [super_run]; unfold bind; rewrite Hone, Hrun.
    unfold ret; repeat split.
    + simpl; congruence.
    + constructor; [split; [exact Hlen | exact Hhd] | exact Hall].
    + congruence.
Qed.

(** X15. A run returns.  When no time of [tlist] is earlier than
    [tlist[0]], the quadrature succeeds, the integrator reports the times
    it is asked to reach and, from [set_state] on, records only events
    with an index in range and a non-zero shifted rate, [run] returns one
    result per seed, in the order of the seeds, each with one trace weight
    per time of [tlist], the first being 1; the solver is left with every
    time of [tlist] cached. *)
Theorem run_returns self (good : Integ -> Prop) (state : Qobj)
    (seeds : list Seed) (t0 : R) (rest : list R)
    (Hquad : forall a b, exists I, quad (_rate_shift self) a b = Ok I)
    (Hall : Forall (fun t => t0 <= t) rest)
    (Htime : forall t (i : Integ),
        integ_time (snd (integ_integrate t i)) = t)
    (Hset : forall t st g i, good (integ_set_state t st g i))
    (Hstep : forall t i, good i -> good (snd (integ_integrate t i)))
    (Hwf : forall i, good i -> well_formed self (integ_collapses i)) :
  exists rs self',
    run state (t0 :: rest) seeds self = (Ok rs, self') /\
    map fst rs = seeds /\
    Forall (fun sr => List.length (trace (snd sr)) = S (List.length rest) /\
                      hd_error (trace (snd sr)) = Some 1) rs /\
    cached_times (t0 :: rest) self'.
Proof.
  destruct (precompute_forward self t0 rest (set_mu_c self [(t0, 1)])
              Hquad eq_refl (fresh_from self t0) Hall)
    as (self1 & Hpre & Hops & (d & Hd & Hin & _) & (d' & Hd' & Hall') & _).
  assert (d' = d) by congruence; subst d'.
  assert (Hc : cached_times (t0 :: rest) self1).
  { exists d; split; [exact Hd |]; intros t [<- | Ht]; auto. }
  destruct (super_run_total self good state t0 rest seeds Htime Hset Hstep
              Hwf self1 Hops Hc)
    as (rs & self' & Hrun & Hseeds & Hshape & Hmu).
  exists rs, self'; unfold run, bind; rewrite Hpre.
  repeat split; auto.
  destruct Hc as (d1 & Hd1 & Hk); exists d1; split; [congruence | exact Hk].
Qed.

End WholeRun.

(** ** The further properties on the scenarios *)

Section ScenarioFacts.

Import TwoLevel TwoLevelFacts.

Lemma frozen_reports (t : R) (i : frozen) :
  integ_time (snd (integ_integrate t i)) = t.
Proof. reflexivity. Qed.

Lemma quad_A_total cache i (a b : R) :
  exists I, quad (_rate_shift (scenarioA cache i)) a b = Ok I.
Proof. eexists; apply quad_A. Qed.

Lemma frozen_quiet cache (i : frozen) :
  jumps i = [] -> well_formed (scenarioA cache (idle 0)) (integ_collapses i).
Proof. intros E c; simpl; rewrite E; intros []. Qed.

Lemma frozen_set_quiet (t : R) (st : diag2) (g : nat) (i : frozen) :
  jumps (integ_set_state t st g i) = [].
Proof. reflexivity. Qed.

Lemma frozen_stays_quiet (t : R) (i : frozen) :
  jumps i = [] -> jumps (snd (integ_integrate t i)) = [].
Proof. intros E; exact E. Qed.

Lemma two_jumps_B c :
  In c [(1 / 2, 1%nat); (1, 0%nat)] ->
  in_range (scenarioB None (idle 0)) c /\
  denominator (scenarioB None (idle 0)) c <> 0.
Proof.
  intros [<- | [<- | []]]; split;
    try (unfold in_range; simpl; lia);
    unfold denominator; rewrite sigma_B; unfold Gamma; simpl; lra.
Qed.

End ScenarioFacts.

(** Scenario B at [t = 0.5]. *)
Lemma shifted_rate_dominates_witness :
  let self := TwoLevel.with_ops TwoLevel.opsB in
  Rabs (-2) <= -2 + sigma self (1 / 2) /\
  (sigma self (1 / 2) = 0 <->
   forall f, In f (ops_and_rates self) -> 0 <= snd f (1 / 2)).
Proof.
  intros self.
  assert (Hne : ops_and_rates self <> []) by discriminate.
  destruct (shifted_rate_dominates self (1 / 2) Hne) as [Habs Hzero].
  split; [| exact Hzero].
  apply (Habs (TwoLevel.proj1, fun _ : R => -2)).
  simpl; right; left; reflexivity.
Defined.

(** The second paired operator of scenario B at [t = 0.5]. *)
Lemma paired_coefficient_square_witness :
  let self := TwoLevel.with_ops TwoLevel.opsB in
  exists c x,
    nth_error (_compute_paired_c_ops self) 1 = Some c /\
    fst c = TwoLevel.proj1 /\
    snd c (1 / 2) = Ok (Fin x) /\
    0 <= x /\ x * x = -2 + sigma self (1 / 2).
Proof.
  intros self.
  destruct (paired_coefficient_square self (1 / 2)) as [_ Hnth].
  exact (Hnth 1%nat (TwoLevel.proj1, fun _ : R => -2) eq_refl).
Defined.

(** Scenario B with a jump of each operator. *)
Lemma discrete_martingale_bounded_witness :
  let self := TwoLevel.scenarioB None (TwoLevel.idle 0) in
  exists v,
    _discrete_martingale self [(1 / 2, 1%nat); (1, 0%nat)] = Ok v /\
    Rabs v <= 1.
Proof.
  intros self.
  destruct (discrete_martingale_bounded self [(1 / 2, 1%nat); (1, 0%nat)]
              two_jumps_B) as [_ Hv].
  exact Hv.
Defined.

Lemma discrete_martingale_reorder_witness :
  let self := TwoLevel.scenarioB None (TwoLevel.idle 0) in
  _discrete_martingale self [(1, 0%nat); (1 / 2, 1%nat)]
    = _discrete_martingale self [(1 / 2, 1%nat); (1, 0%nat)].
Proof.
  intros self.
  apply (discrete_martingale_reorder self).
  - apply perm_swap.
  - intros c Hc; apply (two_jumps_B c Hc).
Defined.

Lemma discrete_martingale_app_witness :
  let self := TwoLevel.scenarioB None (TwoLevel.idle 0) in
  exists v1 v2,
    _discrete_martingale self [(1 / 2, 1%nat)] = Ok v1 /\
    _discrete_martingale self [(1, 0%nat)] = Ok v2 /\
    _discrete_martingale self [(1 / 2, 1%nat); (1, 0%nat)] = Ok (v1 * v2).
Proof.
  intros self.
  exact (discrete_martingale_app self [(1 / 2, 1%nat)] [(1, 0%nat)]
           two_jumps_B).
Defined.

(** One operator with the constant rate 1.0 and a jump at [t = 0.5]. *)
Lemma discrete_martingale_markovian_witness :
  let self := TwoLevel.with_ops TwoLevel.opsP in
  discrete_factor self (1 / 2, 0%nat) = Ok 1 /\
  _discrete_martingale self [(1 / 2, 0%nat)] = Ok 1.
Proof.
  intros self.
  destruct (discrete_martingale_markovian self [(1 / 2, 0%nat)])
    as [Hfac Hval].
  - intros c [<- | []]; unfold in_range; simpl; lia.
  - intros c [<- | []]; split.
    + unfold Gamma; simpl; lra.
    + simpl; intros f [<- | []]; simpl; lra.
  - split; [apply Hfac; now left | exact Hval].
Defined.

(** Scenario A started at 0: the query at 1, asked twice. *)
Lemma continuous_martingale_requery_witness :
  let self := TwoLevel.scenarioA (Some [(0, 1)]) (TwoLevel.idle 0) in
  let self' := TwoLevel.scenarioA (Some TwoLevel.cacheA) (TwoLevel.idle 0) in
  _continuous_martingale 1 self = (Ok (1 * exp (1 * (1 - 0))), self') /\
  _continuous_martingale 1 self' = (Ok (1 * exp (1 * (1 - 0))), self').
Proof.
  intros self self'.
  pose proof (continuous_A (TwoLevel.idle 0)) as Hq.
  split; [exact Hq |].
  destruct (continuous_martingale_requery self 1 _ _ Hq) as [Hagain _].
  apply Hagain; reflexivity.
Defined.

(** Scenario A started at 0: the value at 1, directly and through 0.5. *)
Lemma continuous_martingale_incremental_witness :
  let self := TwoLevel.scenarioA (Some [(0, 1)]) (TwoLevel.idle 0) in
  exists v s v1 s1 s2,
    _continuous_martingale 1 self = (Ok v, s) /\
    _continuous_martingale (1 / 2) self = (Ok v1, s1) /\
    _continuous_martingale 1 s1 = (Ok v, s2) /\
    v = 1 * exp (_a_parameter self * ((1 / 2 - 0) + (1 - 1 / 2))).
Proof.
  intros self.
  apply (continuous_martingale_incremental self [(0, 1)] 0 (1 / 2) 1 1).
  - reflexivity.
  - simpl; rdec; reflexivity.
  - lra.
  - lra.
  - simpl; intros k [<- | []]; left; lra.
  - apply quad_A.
  - apply quad_A.
  - unfold self; rewrite quad_A; f_equal; lra.
Defined.

(** Scenario A: the cache after [start] at 0 and after a query at 1. *)
Lemma continuous_martingale_positive_witness :
  let self := TwoLevel.scenarioA (Some [(0, 1)]) (TwoLevel.idle 0) in
  cache_positive self /\
  cache_positive (TwoLevel.scenarioA (Some TwoLevel.cacheA) (TwoLevel.idle 0))
  /\ 0 < 1 * exp (1 * (1 - 0)).
Proof.
  intros self.
  destruct (continuous_martingale_positive TwoLevel.diag2 TwoLevel.frozen
              nat nat TwoLevel.midpoint TwoLevel.frozen_engine
              (TwoLevel.scenarioA None (TwoLevel.idle 0))) as [Hstart _].
  pose proof (Hstart TwoLevel.mixed 0 None) as Hpos.
  destruct (continuous_martingale_positive TwoLevel.diag2 TwoLevel.frozen
              nat nat TwoLevel.midpoint TwoLevel.frozen_engine self)
    as [_ Hkeep].
  destruct (Hkeep Hpos 1 _ _ (continuous_A (TwoLevel.idle 0)))
    as [Hpos' Hval].
  split; [exact Hpos | split; [exact Hpos' | apply Hval; reflexivity]].
Defined.

(** Scenario A over the times 0, 1 and over the times 1, 0. *)
Lemma run_precomputes_witness :
  let self := TwoLevel.scenarioA None (TwoLevel.idle 0) in
  (exists self1,
     precompute [1] (set_mu_c self [(0, 1)]) = (Ok tt, self1) /\
     cached_times [0; 1] self1 /\
     ops_and_rates self1 = ops_and_rates self) /\
  (exists self1,
     run TwoLevel.mixed [1; 0] [1%nat; 2%nat] self
       = (Raise (ValueError backwards_msg), self1)).
Proof.
  intros self; split.
  - destruct (run_precomputes self TwoLevel.mixed [1%nat] 0 [1]
                (quad_A_total None (TwoLevel.idle 0))) as [Hok _].
    apply Hok; constructor; [lra | constructor].
  - destruct (run_precomputes self TwoLevel.mixed [1%nat; 2%nat] 1 [0]
                (quad_A_total None (TwoLevel.idle 0))) as [_ Hbad].
    apply Hbad; constructor; lra.
Defined.

(** A trajectory of scenario A on the cache prepared for the times 0, 1. *)
Lemma trajectory_reads_cache_witness :
  let self := TwoLevel.scenarioA (Some TwoLevel.cacheA) (TwoLevel.idle 0) in
  exists r self',
    _run_one_traj 1%nat TwoLevel.mixed [0; 1] self = (r, self') /\
    _mu_c self' = _mu_c self /\
    ops_and_rates self' = ops_and_rates self /\
    _a_parameter self' = _a_parameter self.
Proof.
  intros self.
  destruct (traj_A 1%nat (TwoLevel.idle 0)) as (r & Hrun).
  eexists; eexists; split; [exact Hrun |].
  apply (trajectory_reads_cache frozen_reports self 1%nat TwoLevel.mixed
           0 [1] (Ok r)
           (TwoLevel.scenarioA (Some TwoLevel.cacheA) (TwoLevel.idle 1)));
    [| exact Hrun].
  exists TwoLevel.cacheA; split; [reflexivity |].
  intros t [<- | []]; simpl; right; left; reflexivity.
Defined.

Lemma trajectory_result_shape_witness :
  let self := TwoLevel.scenarioA (Some TwoLevel.cacheA) (TwoLevel.idle 0) in
  exists seed' r self',
    _run_one_traj 1%nat TwoLevel.mixed [0; 1] self = (Ok (seed', r), self') /\
    seed' = 1%nat /\
    List.length (times r) = 2%nat /\
    List.length (states r) = 2%nat /\
    List.length (trace r) = 2%nat /\
    hd_error (trace r) = Some 1 /\
    Forall2 weighted (tl (states r)) (tl (trace r)).
Proof.
  intros self.
  destruct (traj_A 1%nat (TwoLevel.idle 0)) as ([seed' r] & Hrun).
  exists seed', r; eexists; split; [exact Hrun |].
  destruct (trajectory_result_shape self 1%nat seed' TwoLevel.mixed [0; 1]
              r _ Hrun)
    as (Hseed & Ht & Hs & Hm & _ & _ & Hhd & Hw & _).
  repeat split; assumption.
Defined.

(** Scenario A as the constructor leaves it. *)
Lemma unstarted_solver_witness :
  let self := TwoLevel.scenarioA None (TwoLevel.idle 0) in
  (exists self',
     _run_one_traj 1%nat TwoLevel.mixed [0; 1] self
       = (Raise (RuntimeError start_first_msg), self')) /\
  step 1 self
    = (Raise (RuntimeError start_first_msg),
       set_integrator self (TwoLevel.idle 1)).
Proof.
  intros self.
  destruct (unstarted_solver self 1%nat TwoLevel.mixed 0 eq_refl)
    as (_ & Htraj & Hstep).
  split; [apply (Htraj 1 []) |].
  apply (Hstep 1 TwoLevel.mixed (TwoLevel.idle 1)); reflexivity.
Defined.

(** The constructor on the single projector. *)
Lemma constructor_invariant_witness :
  exists self : NonMarkovianMCSolver TwoLevel.diag2 TwoLevel.frozen,
    __init__ (TwoLevel.idle 0) TwoLevel.opsP solver_options = Ok self /\
    (exists extra,
       ops_and_rates self = TwoLevel.opsP ++ extra /\
       (List.length extra <= 1)%nat /\
       forall f, In f extra -> snd f = py_float) /\
    _mu_c self = None /\
    (forall t, exists s, _rate_shift self t = Ok s /\ 0 <= s).
Proof.
  destruct (init_appends_float (TwoLevel.idle 0) _ _ _ _ TwoLevelFacts.check_P)
    as (self & Hinit & _).
  exists self; split; [exact Hinit |].
  destruct (constructor_invariant (TwoLevel.idle 0) TwoLevel.opsP
              solver_options) as [_ Hinv].
  destruct (Hinv self Hinit) as (_ & Hext & _ & Hmu & _ & Hshift).
  split; [exact Hext | split; [exact Hmu | exact Hshift]].
Defined.

(** A run of scenario A over the times 0, 1 with two trajectories. *)
Lemma run_returns_witness :
  let self := TwoLevel.scenarioA None (TwoLevel.idle 0) in
  exists rs self',
    run TwoLevel.mixed [0; 1] [1%nat; 2%nat] self = (Ok rs, self') /\
    map fst rs = [1%nat; 2%nat] /\
    Forall (fun sr => List.length (trace (snd sr)) = 2%nat /\
                      hd_error (trace (snd sr)) = Some 1) rs /\
    cached_times [0; 1] self'.
Proof.
  intros self.
  apply (run_returns self (fun i => TwoLevel.jumps i = [])
           TwoLevel.mixed [1%nat; 2%nat] 0 [1]).
  - apply quad_A_total.
  - constructor; [lra | constructor].
  - apply frozen_reports.
  - apply frozen_set_quiet.
  - apply frozen_stays_quiet.
  - apply frozen_quiet.
Defined.

(** ** The weight of a step *)

Section StepFacts.

Context {Qobj Integ Seed Gen : Type}.
Context {QL : QobjLib Qobj} {QD : Quadrature}
        {EN : Engine Qobj Integ Seed Gen}.
Implicit Types self : NonMarkovianMCSolver Qobj Integ.

Lemma current_parts self mu self' :
  _current_martingale self = (Ok mu, self') ->
  exists mu_c mu_d,
    _continuous_martingale (integ_time (_integrator self)) self
      = (Ok mu_c, self') /\
    _discrete_martingale self (integ_collapses (_integrator self))
      = Ok mu_d /\
    mu = mu_c * mu_d.
Proof.
  unfold _current_martingale, bind.
  destruct (_continuous_martingale _ self) as [[mu_c|e] self1] eqn:Hc;
    [| discriminate].
  destruct (continuous_frame _ _ _ _ Hc) as [(Hops & _) _].
  rewrite (discrete_martingale_ext self self1 _ Hops).
  destruct (_discrete_martingale self _) as [mu_d|e]; [| discriminate].
  intros [= <- <-]; exists mu_c, mu_d; auto.
Qed.

(** X16. The current martingale is bounded by its continuous part: on a
    cache of positive values and with well-formed recorded events, a
    returned weight [mu] is [mu_c * mu_d] with [mu_c] positive and
    [|mu| <= mu_c], so the sign of [mu] is the sign of the product of the
    jump factors. *)
Theorem current_martingale_bound self mu self'
    (Hpos : cache_positive self)
    (Hwf : well_formed self (integ_collapses (_integrator self)))
    (Hcur : _current_martingale self = (Ok mu, self')) :
  exists mu_c,
    _continuous_martingale (integ_time (_integrator self)) self
      = (Ok mu_c, self') /\
    0 < mu_c /\
    mu = mu_c * discrete_value self (integ_collapses (_integrator self)) /\
    Rabs mu <= mu_c.
Proof.
  destruct (current_parts self mu self' Hcur) as (mu_c & mu_d & Hc & Hd & ->).
  rewrite (discrete_martingale_ok self _ Hwf) in Hd; injection Hd as <-.
  assert (Hmu : 0 < mu_c).
  { destruct (continuous_cases self _ _ _ Hc)
      as [[_ Hhit] | (d & t0 & v0 & I & Hd & _ & Hv0 & _ & Hr & _)].
    - destruct (Hhit mu_c eq_refl) as (d & Hd & Hget).
      exact (Hpos d Hd _ _ Hget).
    - injection Hr as ->.
      apply Rmult_lt_0_compat; [exact (Hpos d Hd t0 v0 Hv0) | apply exp_pos]. }
  exists mu_c; repeat split; auto.
  pose proof (discrete_value_bounded self _ Hwf) as Hb.
  pose proof (Rabs_pos (discrete_value self
                          (integ_collapses (_integrator self)))) as Hnn.
  rewrite Rabs_mult, (Rabs_right mu_c) by lra.
  nra.
Qed.

(** X17. A step to a time before the start of the cache fails after the
    engine has moved: when the base class has propagated to a time earlier
    than every cached time, [step] raises the [ValueError] of backward
    integration, the integrator keeps its new state and the cache is
    unchanged. *)
Theorem step_backwards self t (state : Qobj) (i : Integ) (d : dict)
    (Hstep : super_step t (_integrator self) = (Ok state, i))
    (Hinit : _mu_c self = Some d)
    (Hearly : forall k, In k (dict_keys d) -> integ_time i < k) :
  step t self = (Raise (ValueError backwards_msg), set_integrator self i) /\
  _mu_c (set_integrator self i) = Some d.
Proof.
  split; [| exact Hinit].
  unfold step; rewrite Hstep.
  unfold bind, _current_martingale, bind.
  rewrite (continuous_backwards (set_integrator self i) d); auto.
Qed.

End StepFacts.

(** Scenario B after one jump of the second operator, at the cached
    time 0. *)
Lemma current_martingale_bound_witness :
  let self := TwoLevel.scenarioB (Some [(0, 1)]) (TwoLevel.jumped 0) in
  exists mu_c,
    _continuous_martingale 0 self = (Ok mu_c, self) /\
    0 < mu_c /\
    1 * -1 = mu_c * discrete_value self [(1 / 2, 1%nat)] /\
    Rabs (1 * -1) <= mu_c.
Proof.
  intros self.
  assert (Hhit : _continuous_martingale 0 self = (Ok 1, self)).
  { apply continuous_hit with [(0, 1)]; [reflexivity |].
    simpl; rdec; reflexivity. }
  assert (Hcur : _current_martingale self = (Ok (1 * -1), self)).
  { unfold _current_martingale, bind.
    change (integ_time (_integrator self)) with 0; rewrite Hhit.
    change (integ_collapses (_integrator self)) with [(1 / 2, 1%nat)].
    rewrite (scenario_B_jump self TwoLevel.proj0 TwoLevel.proj1 eq_refl).
    reflexivity. }
  assert (Hpos : cache_positive self).
  { intros d [= <-] k v; simpl.
    destruct (Req_dec_T k 0); [intros [= <-]; lra | discriminate]. }
  exact (current_martingale_bound (EN := TwoLevel.frozen_engine)
           self (1 * -1) self Hpos (jump_B_ok _ _) Hcur).
Defined.

(** Scenario A started at 1, stepped to 0. *)
Lemma step_backwards_witness :
  let self := TwoLevel.scenarioA (Some [(1, 1)]) (TwoLevel.idle 1) in
  step 0 self
    = (Raise (ValueError backwards_msg),
       set_integrator self (TwoLevel.idle 0)) /\
  _mu_c (set_integrator self (TwoLevel.idle 0)) = Some [(1, 1)].
Proof.
  intros self.
  apply (step_backwards self 0 TwoLevel.mixed (TwoLevel.idle 0) [(1, 1)]).
  - reflexivity.
  - reflexivity.
  - simpl; intros k [<- | []]; lra.
Defined.
